(** * Alignment and classification engine of [analyze_errors.py]

    A shallow embedding of the token aligner ([lcs] and the greedy
    highlighting of [ErrorCase.__init__]), of the span extractor
    ([ErrorCase.get_spans]), of the normaliser ([_remove_punctuation]) and
    of the ordered classification chain shared by [ErrorCase.__init__] and
    [filter_out_acceptable_errors], together with the properties the
    specification states about them.

    Conventions.
    - A Python [str] is a Rocq [string]; one [ascii] stands for one code
      point below 256 (so U+00A0 is the single character 160).
    - A Python [int] is a [Z]; a loop variable produced by [range] is a
      [nat] and is injected into [Z] where it is used as an index.
    - A Python list is a [list]; [l[i]] and [l[i] = v] are [getitem] and
      [setitem], which wrap a negative index once and raise [IndexError]
      out of range, as Python does.
    - A computation that may raise is a value of [M A = exn + A]. *)

From Stdlib Require Import ZArith Lia Bool Ascii String.
From stdpp Require Import base list strings gmap.

Local Open Scope Z_scope.

(** ** Exceptions and the error monad *)

Inductive exn : Type :=
  | IndexError
  | NameError
  | UnboundLocalError
  | AttributeError
  | GenerationError (msg : string).

Definition M (A : Type) : Type := (exn + A)%type.

Definition ret {A} (a : A) : M A := inr a.
Definition raise {A} (e : exn) : M A := inl e.

Definition bind {A B} (m : M A) (k : A -> M B) : M B :=
  match m with
  | inl e => inl e
  | inr a => k a
  end.

Declare Scope py_scope.
Delimit Scope py_scope with py.
Notation "x <- m ;; k" := (bind m (fun x => k))
  (at level 100, m at next level, right associativity) : py_scope.
Local Open Scope py_scope.

(** [for x in xs: s = body(s, x)], stopping at the first exception. *)
Fixpoint for_ {S X} (xs : list X) (body : S -> X -> M S) (s : S) : M S :=
  match xs with
  | [] => ret s
  | x :: xs' => s' <- body s x ;; for_ xs' body s'
  end.

(** [range(n)] for a non-negative bound. *)
Definition range (n : nat) : list nat := seq 0 n.

(** ** Python list indexing *)

(** The position a Python index denotes in a list of length [len]:
    a negative index counts from the end; anything still outside
    [0 .. len-1] is an [IndexError]. *)
Definition norm_index (len : nat) (i : Z) : M nat :=
  let i' := if i <? 0 then i + Z.of_nat len else i in
  if (0 <=? i') && (i' <? Z.of_nat len) then ret (Z.to_nat i')
  else raise IndexError.

Definition getitem {A} (l : list A) (i : Z) : M A :=
  k <- norm_index (length l) i ;;
  match l !! k with
  | Some a => ret a
  | None => raise IndexError
  end.

Definition setitem {A} (l : list A) (i : Z) (v : A) : M (list A) :=
  k <- norm_index (length l) i ;;
  ret (<[k := v]> l).

(** ** Longest common subsequence: [lcs(X, Y)] *)

Abbreviation token := string.
Abbreviation table := (list (list Z)).

(** [L[i][j]] *)
Definition getitem2 (L : table) (i j : Z) : M Z :=
  row <- getitem L i ;; getitem row j.

(** [L[i][j] = v]; the rows of [L] are distinct list objects (they come
    from a list comprehension), so the assignment changes one row only. *)
Definition setitem2 (L : table) (i j : Z) (v : Z) : M table :=
  row <- getitem L i ;;
  row' <- setitem row j v ;;
  setitem L i row'.

Section Lcs.
Variables X Y : list token.

(** The body of the inner [for j] loop. *)
Definition fill_cell (L : table) (i j : nat) : M table :=
  if (Nat.eqb i 0 || Nat.eqb j 0)%bool then
    setitem2 L (Z.of_nat i) (Z.of_nat j) 0
  else
    x <- getitem X (Z.of_nat i - 1) ;;
    y <- getitem Y (Z.of_nat j - 1) ;;
    if String.eqb x y then
      d <- getitem2 L (Z.of_nat i - 1) (Z.of_nat j - 1) ;;
      setitem2 L (Z.of_nat i) (Z.of_nat j) (d + 1)
    else
      u <- getitem2 L (Z.of_nat i - 1) (Z.of_nat j) ;;
      l <- getitem2 L (Z.of_nat i) (Z.of_nat j - 1) ;;
      setitem2 L (Z.of_nat i) (Z.of_nat j) (Z.max u l).

(** [L = [[0 for x in range(n + 1)] for x in range(m + 1)]] followed by
    the two nested [for] loops. *)
Definition zero_table (m n : nat) : table :=
  replicate (m + 1) (replicate (n + 1) 0).

Definition fill_row (n : nat) (L : table) (i : nat) : M table :=
  for_ (range (n + 1)) (fun L j => fill_cell L i j) L.

Definition build_table : M table :=
  let m := length X in
  let n := length Y in
  for_ (range (m + 1)) (fill_row n) (zero_table m n).

(** The three ways one iteration of the backtracking [while] loop
    moves: along the diagonal (a token of the LCS is stored), up
    ([i -= 1], towards the start of [X]), or left ([j -= 1], towards
    the start of [Y]). *)
Inductive direction : Type :=
  | Diagonal (x : token)
  | Up
  | Left.

(** The [if / elif / else] of the loop body at [i > 0] and [j > 0]. *)
Definition choose (L : table) (i j : nat) : M direction :=
  x <- getitem X (Z.of_nat i - 1) ;;
  y <- getitem Y (Z.of_nat j - 1) ;;
  if String.eqb x y then ret (Diagonal x)
  else
    u <- getitem2 L (Z.of_nat i - 1) (Z.of_nat j) ;;
    l <- getitem2 L (Z.of_nat i) (Z.of_nat j - 1) ;;
    if l <? u then ret Up else ret Left.

(** [while i > 0 and j > 0: ...].  Every iteration decreases [i] or
    [j], which the nested structural recursion follows. *)
Fixpoint backtrack (L : table) (i : nat)
  : nat -> Z -> list token -> M (list token) :=
  fix backtrack_j (j : nat) (index : Z) (lcs : list token)
    : M (list token) :=
    match i, j with
    | S i', S j' =>
        d <- choose L i j ;;
        match d with
        | Diagonal x =>
            lcs' <- setitem lcs (index - 1) x ;;
            backtrack L i' j' (index - 1) lcs'
        | Up => backtrack L i' j index lcs
        | Left => backtrack_j j' index lcs
        end
    | _, _ => ret lcs
    end.

(** [l[:-1]] *)
Definition all_but_last {A} (l : list A) : list A :=
  take (length l - 1)%nat l.

Definition lcs : M (list token) :=
  let m := length X in
  let n := length Y in
  L <- build_table ;;
  index <- getitem2 L (Z.of_nat m) (Z.of_nat n) ;;
  let lcs0 := replicate (Z.to_nat (index + 1)) ""%string in
  lcs1 <- setitem lcs0 index ""%string ;;
  lcs2 <- backtrack L m n index lcs1 ;;
  ret (all_but_last lcs2).

(** The recurrence of the specification, as a function of the two
    prefix lengths: [L[i][j] = L[i-1][j-1] + 1] when the tokens
    [X[i-1]] and [Y[j-1]] match, else [max(L[i-1][j], L[i][j-1])],
    and [0] on the border. *)
Definition tokens_match (i j : nat) : bool :=
  match X !! i, Y !! j with
  | Some x, Some y => String.eqb x y
  | _, _ => false
  end.

Fixpoint L_rec (i : nat) : nat -> Z :=
  fix L_rec_j (j : nat) : Z :=
    match i, j with
    | S i', S j' =>
        if tokens_match i' j' then L_rec i' j' + 1
        else Z.max (L_rec i' j) (L_rec_j j')
    | _, _ => 0
    end.
End Lcs.


(** ** Greedy highlighting: the [# LCS] block of [ErrorCase.__init__] *)

(** [while tokens[idx] != token: idx += 1], started at [idx] with [rest]
    the tokens from position [idx] on; running off the end of the list is
    Python's [IndexError]. *)
Fixpoint scan_from (rest : list token) (idx : nat) (tok : token) : M nat :=
  match rest with
  | [] => raise IndexError
  | t :: rest' =>
      if negb (String.eqb t tok) then scan_from rest' (S idx) tok
      else ret idx
  end.

Definition scan (tokens : list token) (idx : nat) (tok : token) : M nat :=
  scan_from (drop idx tokens) idx tok.

Record marks : Type := Marks {
  target_tokens_highlight : list bool;
  pred_tokens_highlight : list bool;
  target_idx : nat;
  pred_idx : nat
}.

(** The body of [for token in lcs_tokens]. *)
Definition mark_token (target_tokens pred_tokens : list token)
    (st : marks) (tok : token) : M marks :=
  ti <- scan target_tokens (target_idx st) tok ;;
  pi <- scan pred_tokens (pred_idx st) tok ;;
  th <- setitem (target_tokens_highlight st) (Z.of_nat ti) true ;;
  ph <- setitem (pred_tokens_highlight st) (Z.of_nat pi) true ;;
  ret (Marks th ph (ti + 1) (pi + 1)).

Definition highlight (target_tokens pred_tokens : list token)
    : M (list bool * list bool) :=
  lcs_tokens <- lcs target_tokens pred_tokens ;;
  let st0 := Marks (replicate (length target_tokens) false)
                   (replicate (length pred_tokens) false) 0 0 in
  st <- for_ lcs_tokens (mark_token target_tokens pred_tokens) st0 ;;
  ret (target_tokens_highlight st, pred_tokens_highlight st).

(** The number of [True] entries of a mask. *)
Definition count_true (mask : list bool) : nat :=
  length (filter (fun b => b = true) mask).

(** ** Span extraction: [ErrorCase.get_spans] *)

(** [(start index, end index, highlighted)] *)
Definition span : Type := (Z * Z * bool)%type.

Definition span_start (s : span) : Z := s.1.1.
Definition span_end (s : span) : Z := s.1.2.
Definition span_flag (s : span) : bool := s.2.

Record span_state : Type := SpanState {
  spans : list span;
  cur_start_idx : Z;
  cur_bool_val : bool
}.

(** The body of [for idx in range(nb_tokens)]. *)
Definition get_spans_step (tokens_highlight : list bool) (nb_tokens : Z)
    (st : span_state) (idx : nat) : M span_state :=
  let 'SpanState spans cur_start_idx cur_bool_val := st in
  if Z.of_nat idx =? nb_tokens - 1 then
    h <- getitem tokens_highlight (Z.of_nat idx) ;;
    if negb (Bool.eqb h cur_bool_val) then
      h' <- getitem tokens_highlight (Z.of_nat idx) ;;
      ret (SpanState
             (spans ++ [(cur_start_idx, nb_tokens - 2, cur_bool_val);
                        (nb_tokens - 1, nb_tokens - 1, h')])
             cur_start_idx cur_bool_val)
    else
      ret (SpanState
             (spans ++ [(cur_start_idx, nb_tokens - 1, cur_bool_val)])
             cur_start_idx cur_bool_val)
  else
    h <- getitem tokens_highlight (Z.of_nat idx) ;;
    if negb (Bool.eqb h cur_bool_val) then
      h' <- getitem tokens_highlight (Z.of_nat idx) ;;
      ret (SpanState
             (spans ++ [(cur_start_idx, Z.of_nat idx - 1, cur_bool_val)])
             (Z.of_nat idx) h')
    else ret st.

Definition get_spans (tokens_highlight : list bool) : M (list span) :=
  let nb_tokens := length tokens_highlight in
  first <- getitem tokens_highlight 0 ;;
  st <- for_ (range nb_tokens)
          (get_spans_step tokens_highlight (Z.of_nat nb_tokens))
          (SpanState [] 0 first) ;;
  ret (spans st).

(** What the specification asks of a span list over the index range
    [from .. to-1]: every span is non-empty, the first starts at [from],
    each next one starts right after the previous one ends, and the last
    ends at [to - 1]. *)
Fixpoint tiling (from : Z) (sp : list span) (to : Z) : Prop :=
  match sp with
  | [] => from = to
  | s :: rest =>
      span_start s = from /\ span_start s <= span_end s /\
      tiling (span_end s + 1) rest to
  end.

(** No two neighbours carry the same flag. *)
Fixpoint alternating (sp : list span) : Prop :=
  match sp with
  | s1 :: (s2 :: _) as rest => span_flag s1 <> span_flag s2 /\ alternating rest
  | _ => True
  end.

Definition covers (p : Z) (s : span) : bool :=
  (span_start s <=? p) && (p <=? span_end s).

(** The number of spans an index falls into. *)
Definition cover_count (p : Z) (sp : list span) : nat :=
  length (filter (fun s => covers p s = true) sp).

(** ** Strings *)

Definition code (c : ascii) : N := N_of_ascii c.

(** [str.isspace] on the code points below 256. *)
Definition isspace (c : ascii) : bool :=
  let n := code c in
  ((9 <=? n) && (n <=? 13) || (28 <=? n) && (n <=? 32)
   || (n =? 133) || (n =? 160))%N.

(** [str.lower] on one code point below 256: A-Z and the accented
    capitals U+00C0 .. U+00DE (without the multiplication sign U+00D7)
    move up by 32. *)
Definition lower_char (c : ascii) : ascii :=
  let n := code c in
  if ((65 <=? n) && (n <=? 90)
      || (192 <=? n) && (n <=? 222) && negb (n =? 215))%N
  then ascii_of_N (n + 32) else c.

Fixpoint lower (s : string) : string :=
  match s with
  | EmptyString => EmptyString
  | String c s' => String (lower_char c) (lower s')
  end.

Fixpoint lstrip (s : string) : string :=
  match s with
  | EmptyString => EmptyString
  | String c s' => if isspace c then lstrip s' else s
  end.

Fixpoint rstrip (s : string) : string :=
  match s with
  | EmptyString => EmptyString
  | String c s' =>
      match rstrip s' with
      | EmptyString => if isspace c then EmptyString else String c EmptyString
      | r => String c r
      end
  end.

(** [s.strip()] *)
Definition strip (s : string) : string := rstrip (lstrip s).

(** [s.replace(old, new)] for a non-empty [old]: the occurrences of [old]
    are replaced from left to right without overlap.  [skip] counts the
    characters of an occurrence just replaced that are still to be
    passed over. *)
Fixpoint replace_from (old new : string) (skip : nat) (s : string) : string :=
  match s with
  | EmptyString => EmptyString
  | String c s' =>
      match skip with
      | S k => replace_from old new k s'
      | O =>
          if String.prefix old s
          then new +:+ replace_from old new (String.length old - 1) s'
          else String c (replace_from old new 0 s')
      end
  end.

Definition replace (old new s : string) : string := replace_from old new 0 s.

(** [s.split(' ')]: one piece between each two separators, so the result
    is never empty and consecutive separators give empty pieces. *)
Fixpoint split (sep : ascii) (s : string) : list string :=
  match s with
  | EmptyString => [EmptyString]
  | String c s' =>
      if Ascii.eqb c sep then EmptyString :: split sep s'
      else match split sep s' with
           | w :: ws => String c w :: ws
           | [] => [String c EmptyString]
           end
  end.

(** [line[line.find(':') + 1 :]]; [find] gives [-1] when there is no
    colon, and the slice is then the whole line. *)
Definition after_colon (line : string) : string :=
  match String.index 0 ":" line with
  | Some k => String.substring (k + 1) (String.length line - (k + 1)) line
  | None => line
  end.

(** ** Normalisation: [_remove_punctuation] *)

(** [string.punctuation] *)
Definition punctuation : string :=
  "!" +:+ String "034"%char "#$%&'()*+,-./:;<=>?@[\]^_`{|}~".

(** One character of a set, with a backslash escaping the next one. *)
Definition read_char (s : string) : option (ascii * string) :=
  match s with
  | String "\"%char (String e rest) => Some (e, rest)
  | String c rest => Some (c, rest)
  | EmptyString => None
  end.

(** The ranges denoted by the body of a set [[...]] of Python's [re], for
    the syntax this program's pattern uses: a character, a backslash
    followed by a punctuation character (that character), [lo-hi] (a
    range), and the closing bracket.  The set of the pattern neither
    starts with a bracket or a caret nor contains a class such as [\d]. *)
Fixpoint parse_set (fuel : nat) (s : string) : list (ascii * ascii) :=
  match fuel with
  | O => []
  | S fuel' =>
      match s with
      | String "]"%char _ => []
      | _ =>
          match read_char s with
          | None => []
          | Some (lo, rest) =>
              match rest with
              | String "-"%char (String "]"%char _) =>
                  [(lo, lo); ("-"%char, "-"%char)]
              | String "-"%char rest' =>
                  match read_char rest' with
                  | Some (hi, rest'') => (lo, hi) :: parse_set fuel' rest''
                  | None => []
                  end
              | _ => (lo, lo) :: parse_set fuel' rest
              end
          end
      end
  end.

Definition in_set (set : list (ascii * ascii)) (c : ascii) : bool :=
  existsb (fun r => (code r.1 <=? code c)%N && (code c <=? code r.2)%N) set.

Fixpoint remove_chars (drop : ascii -> bool) (s : string) : string :=
  match s with
  | EmptyString => EmptyString
  | String c s' =>
      if drop c then remove_chars drop s' else String c (remove_chars drop s')
  end.

(** [re.sub(pattern, '', word)] for a pattern that is one set. *)
Definition re_sub_set (pattern word : string) : string :=
  match pattern with
  | String "["%char body =>
      remove_chars (in_set (parse_set (String.length body) body)) word
  | _ => word
  end.

Definition NBSP : string := String "160"%char EmptyString.

Definition _remove_punctuation (word : string) (remove_spaces do_lower : bool)
    : string :=
  let all_punct_marks := punctuation in
  let word := re_sub_set ("[" +:+ all_punct_marks +:+ "]") word in
  let word :=
    if remove_spaces then strip (replace NBSP "" (replace " " "" word))
    else word in
  let word := if do_lower then lower word else word in
  word.

(** ** The classification chain *)

(** The branch of the [if / elif / else] chain a pair ends in, named by
    the counter the branch increments.  The specification calls them
    ExactMatch / PunctuationOnlyDifference ([correct_with_no_punct]),
    PhoneticVariant ([correct_with_zs]), AcceptableAlternate
    ([acceptable_error]) and Wrong ([wrong]). *)
Inductive verdict : Type :=
  | Correct_with_no_punct
  | Correct_with_zs
  | Acceptable_error
  | Wrong.

(** What a run leaves behind besides its result: the calls of the
    external generator, the ["????"] print of [ErrorCase.__init__], and
    the branch of the chain reached for the span pair at position [ix] of
    the [zip].  Other prints and the [pdb] hook are left out. *)
Inductive event : Type :=
  | Normalize (text : string) (n_tagged : Z)
  | Question_marks (ix : nat)
  | Verdict (ix : nat) (v : verdict).

(** A computation with a trace: the events so far, and a result or the
    exception that ended it. *)
Definition T (A : Type) : Type := (list event * M A)%type.

Definition tret {A} (a : A) : T A := ([], ret a).
Definition traise {A} (e : exn) : T A := ([], raise e).
Definition lift {A} (m : M A) : T A := ([], m).
Definition emit (ev : event) : T unit := ([ev], ret tt).

Definition tbind {A B} (m : T A) (k : A -> T B) : T B :=
  match m with
  | (tr, inl e) => (tr, inl e)
  | (tr, inr a) => let r := k a in (tr ++ r.1, r.2)
  end.

Notation "x <~ m ;; k" := (tbind m (fun x => k))
  (at level 100, m at next level, right associativity) : py_scope.

Fixpoint tfor {S X} (xs : list X) (body : S -> X -> T S) (s : S) : T S :=
  match xs with
  | [] => tret s
  | x :: xs' => s' <~ body s x ;; tfor xs' body s'
  end.

Definition trace {A} (t : T A) : list event := t.1.
Definition outcome {A} (t : T A) : M A := t.2.

(** [[f(x) for x in xs]] *)
Fixpoint map_M {A B} (f : A -> M B) (xs : list A) : M (list B) :=
  match xs with
  | [] => ret []
  | x :: xs' => y <- f x ;; ys <- map_M f xs' ;; ret (y :: ys)
  end.

(** The four counters; [None] is a name that is not bound yet. *)
Record counters : Type := Counters {
  correct_with_no_punct : option Z;
  correct_with_zs : option Z;
  acceptable_error : option Z;
  wrong : option Z
}.

(** [c += 1] *)
Definition incr (c : option Z) : M (option Z) :=
  match c with
  | Some v => ret (Some (v + 1))
  | None => raise UnboundLocalError
  end.

Definition bump (v : verdict) (cs : counters) : M counters :=
  match v with
  | Correct_with_no_punct =>
      c <- incr (correct_with_no_punct cs) ;;
      ret (Counters c (correct_with_zs cs) (acceptable_error cs) (wrong cs))
  | Correct_with_zs =>
      c <- incr (correct_with_zs cs) ;;
      ret (Counters (correct_with_no_punct cs) c (acceptable_error cs) (wrong cs))
  | Acceptable_error =>
      c <- incr (acceptable_error cs) ;;
      ret (Counters (correct_with_no_punct cs) (correct_with_zs cs) c (wrong cs))
  | Wrong =>
      c <- incr (wrong cs) ;;
      ret (Counters (correct_with_no_punct cs) (correct_with_zs cs)
             (acceptable_error cs) c)
  end.

(** [normalizer.normalize(text, n_tagged=...)] *)
Definition normalize_t : Type := string -> Z -> M (list string).

Section Classifier.
(** [remove_punctuation] (without the underscore) is a name the module
    uses and neither defines nor imports. *)
Variable remove_punctuation : string -> M string.

(** The chain of [filter_out_acceptable_errors] (lines 327-349) and of
    [ErrorCase.__init__] (lines 166-188), up to the increment of the
    counter.  [normalizer] is [None] for Python's [None]; [_input] is
    [None] while the name is unbound. *)
Definition classify (normalizer : option normalize_t)
    (_input : option string) (pred target : string) : T verdict :=
  let pred_no_punct := strip (_remove_punctuation pred true true) in
  let target_no_punct := strip (_remove_punctuation target true true) in
  if String.eqb pred_no_punct target_no_punct then
    tret Correct_with_no_punct
  else if String.eqb (replace "s" "z" pred_no_punct)
                      (replace "s" "z" target_no_punct) then
    tret Correct_with_zs
  else
    match normalizer, _input with
    | None, _ => traise AttributeError
    | Some _, None => traise UnboundLocalError
    | Some normalize, Some _input =>
        let text := strip (replace "``" "" _input) in
        _ <~ emit (Normalize text 100000) ;;
        wfst_pred <~ lift (normalize text 100000) ;;
        wfst_pred <~ lift (map_M remove_punctuation wfst_pred) ;;
        if existsb (String.eqb pred_no_punct) wfst_pred then
          tret Acceptable_error
        else
          tret Wrong
    end.

(** *** [filter_out_acceptable_errors] *)

Record filter_state : Type := FilterState {
  f_input : option string;
  f_pred : string;
  f_target : string;
  original_wrong : Z;
  f_counters : counters
}.

(** The body of [for line in f]. *)
Definition filter_line (normalizer : option normalize_t)
    (st : filter_state) (line : string) : T filter_state :=
  if String.prefix "Original Input" line then
    tret (FilterState (Some (strip (after_colon line))) (f_pred st)
            (f_target st) (original_wrong st) (f_counters st))
  else if String.prefix "Predicted Str" line then
    tret (FilterState (f_input st) (strip (after_colon line))
            (f_target st) (original_wrong st) (f_counters st))
  else if String.prefix "Ground-Truth" line then
    let target := strip (after_colon line) in
    let original_wrong := original_wrong st + 1 in
    v <~ classify normalizer (f_input st) (f_pred st) target ;;
    cs <~ lift (bump v (f_counters st)) ;;
    tret (FilterState (f_input st) (f_pred st) target original_wrong cs)
  else tret st.

(** The function, given the value of [PYNINI_AVAILABLE], the normalizer
    that [NormalizerWithAudio(...)] builds, and the lines of the file
    named by the free name [input_file].  The parameter [input] is not
    used; [pred] and [target] are bound from the start.  The function
    prints its counters and returns nothing; the model returns the
    values its local names hold at the end ([None] when it returns at
    once). *)
Definition filter_out_acceptable_errors (PYNINI_AVAILABLE : bool)
    (normalizer : normalize_t) (input_file : list string)
    (input pred target : string) : T (option filter_state) :=
  if negb PYNINI_AVAILABLE then tret None
  else
    let st0 := FilterState None pred target 0
                 (Counters (Some 0) (Some 0) (Some 0) (Some 0)) in
    st <~ tfor input_file (filter_line (Some normalizer)) st0 ;;
    tret (Some st).

(** *** [ErrorCase.__init__] *)

Record ErrorCase : Type := MkErrorCase {
  target_tokens : list token;
  pred_tokens : list token;
  target_spans : list span;
  pred_spans : list span
}.

(** The body of [for pred_span, target_span in zip(...)]; [ix] is the
    position of the pair in the [zip].  The counters are local names of
    [__init__] that nothing binds before the loop. *)
Definition classify_pair (normalizer : option normalize_t)
    (_input pred target : string) (cs : counters)
    (p : nat * (span * span)) : T counters :=
  let '(ix, (pred_span, target_span)) := p in
  let '(start_pred, end_pred, no_error_pred) := pred_span in
  let '(start_target, end_target, no_error_target) := target_span in
  if negb no_error_pred then
    _ <~ (if no_error_target then emit (Question_marks ix) else tret tt) ;;
    v <~ classify normalizer (Some _input) pred target ;;
    _ <~ emit (Verdict ix v) ;;
    lift (bump v cs)
  else tret cs.

Definition unbound_counters : counters := Counters None None None None.

Definition ErrorCase_init (_input target pred classes mode : string)
    (normalizer : option normalize_t) : T ErrorCase :=
  let target_tokens := split " " target in
  let pred_tokens := split " " pred in
  hl <~ lift (highlight target_tokens pred_tokens) ;;
  target_spans <~ lift (get_spans hl.1) ;;
  pred_spans <~ lift (get_spans hl.2) ;;
  let pairs := zip pred_spans target_spans in
  _ <~ tfor (zip (seq 0 (length pairs)) pairs)
         (classify_pair normalizer _input pred target) unbound_counters ;;
  tret (MkErrorCase target_tokens pred_tokens target_spans pred_spans).
End Classifier.

(** ** Falling back on the input: [class_based_evaluation_cg.main] *)

(** One iteration of the loop of lines 107-115, for the new value of
    [batch_preds[ix]].  [forward] is [_dir == constants.INST_FORWARD],
    [low_confidence] the outcome of the floating-point comparison
    [_prob < neural_confidence_threshold], [is_url] the imported helper
    and [cg_normalize] the call [cg_normalizer.normalize(text=...,
    verbose=False, n_tagged=1)].  The bare [except] catches whatever the
    call or the indexing raises. *)
Definition cg_prediction (is_url : string -> bool)
    (cg_normalize : string -> M (list string))
    (forward low_confidence : bool) (_input pred : string) : string :=
  if forward && low_confidence then
    let _input := if is_url _input then replace " " "" _input else _input in
    match (cg_outputs <- cg_normalize _input ;; getitem cg_outputs 0) with
    | inr out => out
    | inl _ => _input
    end
  else pred.

(** ** Rendering: [ErrorCase.get_spans_html] *)

(** A bound of a slice [l[a:b]]: a negative bound counts from the end,
    and the result is clipped to [0 .. len]. *)
Definition slice_bound (len : nat) (i : Z) : nat :=
  let i' := if i <? 0 then i + Z.of_nat len else i in
  Z.to_nat (Z.min (Z.of_nat len) (Z.max 0 i')).

(** [l[a:b]] *)
Definition slice {A} (l : list A) (a b : Z) : list A :=
  let start := slice_bound (length l) a in
  let stop := slice_bound (length l) b in
  take (stop - start)%nat (drop start l).

(** [sep.join(words)] *)
Fixpoint join (sep : string) (words : list string) : string :=
  match words with
  | [] => ""
  | [w] => w
  | w :: rest => w +:+ sep +:+ join sep rest
  end.

Definition quote : string := String "034"%char EmptyString.

(** ['<span style="color:{}">{}</span> '.format(color, text)] *)
Definition format_span (color text : string) : string :=
  "<span style=" +:+ quote +:+ "color:" +:+ color +:+ quote +:+ ">"
  +:+ text +:+ "</span> ".

Definition get_spans_html (spans : list span) (tokens : list token) : string :=
  fold_left
    (fun html_str '(start, end_, type) =>
       let color := if (type : bool) then "red" else "black" in
       let span_tokens := slice tokens start (end_ + 1) in
       let span_str := format_span color (join " " span_tokens) in
       html_str +:+ span_str)
    spans "".

(** ** Reading a record: [ErrorCase.from_lines] *)

(** The four local names of [from_lines]; [None] is a name no line has
    bound yet. *)
Record fields : Type := Fields {
  fl_input : option string;
  fl_pred : option string;
  fl_target : option string;
  fl_classes : option string
}.

(** The body of [for line in lines]. *)
Definition from_lines_line (st : fields) (line : string) : fields :=
  if String.prefix "Original Input" line then
    Fields (Some (strip (after_colon line))) (fl_pred st) (fl_target st)
      (fl_classes st)
  else if String.prefix "Predicted Str" line then
    Fields (fl_input st) (Some (strip (after_colon line))) (fl_target st)
      (fl_classes st)
  else if String.prefix "Ground-Truth" line then
    Fields (fl_input st) (fl_pred st) (Some (strip (after_colon line)))
      (fl_classes st)
  else if String.prefix "Ground Classes" line then
    Fields (fl_input st) (fl_pred st) (fl_target st)
      (Some (strip (after_colon line)))
  else st.

(** [cls(_input, target, pred, classes, mode, normalizer=normalizer)]
    after the loop; reading a name no line has bound raises
    [UnboundLocalError]. *)
Definition from_lines (remove_punctuation : string -> M string)
    (lines : list string) (mode : string) (normalizer : option normalize_t)
    : T ErrorCase :=
  let st := fold_left from_lines_line lines (Fields None None None None) in
  match fl_input st, fl_target st, fl_pred st, fl_classes st with
  | Some _input, Some target, Some pred, Some classes =>
      ErrorCase_init remove_punctuation _input target pred classes mode
        normalizer
  | _, _, _, _ => traise UnboundLocalError
  end.

(** ** Per-class statistics: [class_based_evaluation_cg] *)

(** One record of the batch: direction, semiotic class, prediction and
    target. *)
Definition instance : Type := (string * string * string * string)%type.

(** [zip(batch_dirs, batch_classes, batch_preds, batch_targets)] *)
Definition zip4 (dirs classes preds targets : list string) : list instance :=
  zip (zip (zip dirs classes) preds) targets.

(** [if not _class in stats: stats[_class] = []] followed by
    [stats[_class].append(v)]; the key is there when the list is
    appended to. *)
Definition append_stat (stats : gmap string (list Z)) (_class : string)
    (v : Z) : gmap string (list Z) :=
  let stats :=
    match stats !! _class with
    | None => <[_class := []]> stats
    | Some _ => stats
    end in
  alter (fun l => l ++ [v]) _class stats.

Section ClassStats.
(** [TextNormalizationTestDataset.is_same(pred, target, direction, lang)]
    and the constant [constants.INST_BACKWARD] come from modules outside
    these files. *)
Variable is_same : string -> string -> string -> string -> bool.
Variable INST_BACKWARD : string.

(** [int(correct)] *)
Definition int_of_bool (b : bool) : Z := if b then 1 else 0.

(** The body of the loop of lines 119-124; the state is the pair of
    dictionaries [(itn_class2stats, tn_class2stats)]. *)
Definition update_stats (lang : string)
    (st : gmap string (list Z) * gmap string (list Z)) (inst : instance)
    : gmap string (list Z) * gmap string (list Z) :=
  let '(direction, _class, pred, target) := inst in
  let correct := is_same pred target direction lang in
  if String.eqb direction INST_BACKWARD then
    (append_stat st.1 _class (int_of_bool correct), st.2)
  else
    (st.1, append_stat st.2 _class (int_of_bool correct)).

Definition update_stats_batch (lang : string)
    (st : gmap string (list Z) * gmap string (list Z))
    (dirs classes preds targets : list string)
    : gmap string (list Z) * gmap string (list Z) :=
  fold_left (update_stats lang) (zip4 dirs classes preds targets) st.
End ClassStats.

(** [np.sum(class2stats[class_name])] and [len(class2stats[class_name])],
    the two integers [print_class_based_stats] prints for a class. *)
Definition correct_count (outcomes : list Z) : Z := foldr Z.add 0 outcomes.
Definition total_count (outcomes : list Z) : Z := Z.of_nat (length outcomes).

(** ** Auxiliary notions for the properties *)

(** The tokens a mask marks, in order. *)
Fixpoint marked (mask : list bool) (tokens : list token) : list token :=
  match mask, tokens with
  | b :: mask', t :: tokens' =>
      if b then t :: marked mask' tokens' else marked mask' tokens'
  | _, _ => []
  end.

(** The number of occurrences of a character. *)
Fixpoint count_char (c : ascii) (s : string) : nat :=
  match s with
  | EmptyString => O
  | String d s' => (if Ascii.eqb c d then 1 else 0) + count_char c s'
  end.

(** The set of the pattern of [_remove_punctuation]. *)
Definition punctuation_class : list (ascii * ascii) :=
  parse_set (String.length (punctuation +:+ "]")) (punctuation +:+ "]").

(** The string neither starts nor ends with white space. *)
Definition starts_nonspace (s : string) : Prop :=
  match s with
  | EmptyString => True
  | String c _ => isspace c = false
  end.

(** The number of events of a trace that are calls of the generator. *)
Fixpoint generator_calls (tr : list event) : nat :=
  match tr with
  | [] => O
  | Normalize _ _ :: tr' => S (generator_calls tr')
  | _ :: tr' => generator_calls tr'
  end.

(** The number of lines that start with [Ground-Truth]. *)
Definition ground_truth_lines (lines : list string) : nat :=
  length (List.filter (String.prefix "Ground-Truth") lines).

(** The counters of [filter_out_acceptable_errors] after [n] calls of
    the generator: all four are bound and not negative, they add up to
    [original_wrong], and the calls are the records counted in
    [acceptable_error] and [wrong]. *)
Definition accounted (n : nat) (st : filter_state) : Prop :=
  exists a b c d,
    f_counters st = Counters (Some a) (Some b) (Some c) (Some d)
    /\ 0 <= a /\ 0 <= b /\ 0 <= c /\ 0 <= d
    /\ original_wrong st = a + b + c + d
    /\ Z.of_nat n = c + d.

(** The outcomes the loop of lines 119-124 appends for the class [c]:
    those of the instances of that class whose direction is (or, for
    [backward = false], is not) [INST_BACKWARD], in order. *)
Fixpoint outcomes (is_same : string -> string -> string -> string -> bool)
    (INST_BACKWARD lang : string) (backward : bool) (c : string)
    (records : list instance) : list Z :=
  match records with
  | [] => []
  | (direction, _class, pred, target) :: rest =>
      if Bool.eqb (String.eqb direction INST_BACKWARD) backward
         && String.eqb _class c
      then int_of_bool (is_same pred target direction lang)
             :: outcomes is_same INST_BACKWARD lang backward c rest
      else outcomes is_same INST_BACKWARD lang backward c rest
  end.

(** Every list of a dictionary of statistics is non-empty and holds
    zeros and ones. *)
Definition stats_ok (stats : gmap string (list Z)) : Prop :=
  forall c l, stats !! c = Some l ->
    l <> [] /\ Forall (fun v => v = 0 \/ v = 1) l.

(** The mask a span list stands for: each span gives as many copies of
    its flag as it has indices. *)
Definition expand (sp : list span) : list bool :=
  concat (map (fun s => replicate (Z.to_nat (span_end s + 1 - span_start s))
                          (span_flag s)) sp).

(** ** Invariants of the loops *)

(** The cells the two nested loops of [lcs] have written when they are
    about to write cell [(i0, j0)]. *)
Definition before (i0 j0 i j : nat) : Prop :=
  (i < i0)%nat \/ (i = i0 /\ (j < j0)%nat).

(** The table has its [m+1] rows of [n+1] cells, and every cell written
    so far holds the value of the recurrence. *)
Definition table_inv (X Y : list token) (i0 j0 : nat) (L : table) : Prop :=
  length L = (length X + 1)%nat /\
  forall i row, L !! i = Some row ->
    length row = (length Y + 1)%nat /\
    forall j, before i0 j0 i j -> (j <= length Y)%nat ->
      row !! j = Some (L_rec X Y i j).

(** One side of the highlighting loop, when [rest] is what remains of the
    LCS and [c] tokens have been marked: the mask has the length of the
    token list, nothing is marked from [idx] on, [c] entries are [true],
    and [rest] is still a subsequence of the tokens from [idx] on. *)
Definition side_inv (tokens rest : list token) (c : nat)
    (mask : list bool) (idx : nat) : Prop :=
  length mask = length tokens
  /\ (forall p, (idx <= p)%nat -> (p < length tokens)%nat ->
        mask !! p = Some false)
  /\ count_true mask = c
  /\ rest `sublist_of` drop idx tokens.

(** The flag of the last span differs from [b]. *)
Definition last_flag_differs (sp : list span) (b : bool) : Prop :=
  forall s, last sp = Some s -> span_flag s <> b.

(** Every index a span covers carries the flag of the span in the mask. *)
Definition flags_agree (mask : list bool) (sp : list span) : Prop :=
  forall s p, s ∈ sp -> span_start s <= p <= span_end s ->
    mask !! Z.to_nat p = Some (span_flag s).

(** The state of [get_spans] before the iteration [idx = k]: the spans
    closed so far tile [0 .. cur_start_idx - 1], alternate and agree with
    the mask; the open run starts at [cur_start_idx], carries
    [cur_bool_val] and reaches up to position [k - 1] (position [0] when
    nothing has been read yet). *)
Definition spans_inv (mask : list bool) (k : nat) (st : span_state) : Prop :=
  tiling 0 (spans st) (cur_start_idx st)
  /\ alternating (spans st)
  /\ last_flag_differs (spans st) (cur_bool_val st)
  /\ flags_agree mask (spans st)
  /\ 0 <= cur_start_idx st < Z.of_nat (Nat.max k 1)
  /\ forall p, (Z.to_nat (cur_start_idx st) <= p)%nat ->
       (p < Nat.max k 1)%nat -> mask !! p = Some (cur_bool_val st).

(** The state of [get_spans] after the last iteration. *)
Definition spans_done (mask : list bool) (st : span_state) : Prop :=
  tiling 0 (spans st) (Z.of_nat (length mask))
  /\ alternating (spans st)
  /\ flags_agree mask (spans st).

(** The character [c] occurs in the string. *)
Fixpoint occurs (c : ascii) (s : string) : Prop :=
  match s with
  | EmptyString => False
  | String d s' => c = d \/ occurs c s'
  end.

(** * Properties *)

(** ** Indexing *)

Lemma norm_index_nat len k :
  (k < len)%nat -> norm_index len (Z.of_nat k) = inr k.
Proof.
  intros Hk. unfold norm_index.
  replace (Z.of_nat k <? 0) with false by (symmetry; apply Z.ltb_ge; lia).
  replace (0 <=? Z.of_nat k) with true by (symmetry; apply Z.leb_le; lia).
  replace (Z.of_nat k <? Z.of_nat len) with true
    by (symmetry; apply Z.ltb_lt; lia).
  simpl. unfold ret. f_equal. lia.
Qed.

Lemma getitem_nat {A} (l : list A) k a :
  l !! k = Some a -> getitem l (Z.of_nat k) = inr a.
Proof.
  intros Hl. unfold getitem.
  rewrite norm_index_nat by (eapply lookup_lt_Some; eauto).
  simpl. rewrite Hl. reflexivity.
Qed.

Lemma getitem_pred {A} (l : list A) k a :
  l !! k = Some a -> getitem l (Z.of_nat (S k) - 1) = inr a.
Proof.
  intros Hl. replace (Z.of_nat (S k) - 1) with (Z.of_nat k) by lia.
  apply getitem_nat, Hl.
Qed.

Lemma setitem_nat {A} (l : list A) k v :
  (k < length l)%nat -> setitem l (Z.of_nat k) v = inr (<[k := v]> l).
Proof.
  intros Hk. unfold setitem. rewrite norm_index_nat by exact Hk. reflexivity.
Qed.

Lemma getitem_empty {A} (i : Z) : getitem (@nil A) i = inl IndexError.
Proof.
  assert (Hno : forall k, (0 <=? k) && (k <? 0) = false).
  { intros k. destruct (0 <=? k) eqn:E1, (k <? 0) eqn:E2;
      simpl; try reflexivity; lia. }
  unfold getitem, norm_index. simpl. rewrite Hno. reflexivity.
Qed.

(** ** Loops over a range *)

Lemma for_seq_inv {S} (P : nat -> S -> Prop) (body : S -> nat -> M S) n a s :
  P a s ->
  (forall k s, (a <= k < a + n)%nat -> P k s ->
     exists s', body s k = inr s' /\ P (Datatypes.S k) s') ->
  exists s', for_ (seq a n) body s = inr s' /\ P (a + n)%nat s'.
Proof.
  revert a s. induction n as [|n IH]; intros a s HP Hbody; simpl.
  - exists s. split; [reflexivity|]. replace (a + 0)%nat with a by lia. exact HP.
  - destruct (Hbody a s) as (s1 & E1 & HP1); [lia | exact HP |].
    rewrite E1. simpl.
    destruct (IH (Datatypes.S a) s1 HP1) as (s2 & E2 & HP2).
    + intros k s0 Hk. apply Hbody. lia.
    + exists s2. split; [exact E2|].
      replace (a + Datatypes.S n)%nat with (Datatypes.S a + n)%nat by lia. exact HP2.
Qed.

Lemma for_range_inv {S} (P : nat -> S -> Prop) (body : S -> nat -> M S) n s :
  P O s ->
  (forall k s, (k < n)%nat -> P k s ->
     exists s', body s k = inr s' /\ P (Datatypes.S k) s') ->
  exists s', for_ (range n) body s = inr s' /\ P n s'.
Proof.
  intros HP Hbody. unfold range.
  destruct (for_seq_inv P body n O s HP) as (s' & E & H'); eauto.
  intros k s0 Hk. apply Hbody. lia.
Qed.

(** ** The table of [lcs] *)

Section LcsFacts.
Variables X Y : list token.

Lemma L_rec_0_l j : L_rec X Y 0 j = 0.
Proof. destruct j; reflexivity. Qed.

Lemma L_rec_0_r i : L_rec X Y i 0 = 0.
Proof. destruct i; reflexivity. Qed.

Lemma L_rec_S i j :
  L_rec X Y (S i) (S j) =
  if tokens_match X Y i j then L_rec X Y i j + 1
  else Z.max (L_rec X Y i (S j)) (L_rec X Y (S i) j).
Proof. reflexivity. Qed.

Lemma L_rec_nonneg i j : 0 <= L_rec X Y i j.
Proof.
  revert j. induction i as [|i IHi]; intros j.
  - rewrite L_rec_0_l. lia.
  - induction j as [|j IHj].
    + rewrite L_rec_0_r. lia.
    + rewrite L_rec_S. destruct (tokens_match X Y i j).
      * specialize (IHi j). lia.
      * specialize (IHi (S j)). lia.
Qed.

Lemma tokens_match_lookup i j x y :
  X !! i = Some x -> Y !! j = Some y ->
  tokens_match X Y i j = String.eqb x y.
Proof. intros HX HY. unfold tokens_match. rewrite HX, HY. reflexivity. Qed.

Lemma table_inv_getitem2 i0 j0 L i j :
  table_inv X Y i0 j0 L -> before i0 j0 i j ->
  (i <= length X)%nat -> (j <= length Y)%nat ->
  getitem2 L (Z.of_nat i) (Z.of_nat j) = inr (L_rec X Y i j).
Proof.
  intros [Hlen Hrows] Hb Hi Hj. unfold getitem2.
  destruct (lookup_lt_is_Some_2 L i) as [row Hrow]; [lia|].
  rewrite (getitem_nat _ _ _ Hrow). simpl.
  destruct (Hrows i row Hrow) as [_ Hcells].
  apply getitem_nat. apply Hcells; assumption.
Qed.

Lemma table_inv_setitem2 i j L :
  table_inv X Y i j L -> (i <= length X)%nat -> (j <= length Y)%nat ->
  exists L', setitem2 L (Z.of_nat i) (Z.of_nat j) (L_rec X Y i j) = inr L'
             /\ table_inv X Y i (S j) L'.
Proof.
  intros [Hlen Hrows] Hi Hj. unfold setitem2.
  destruct (lookup_lt_is_Some_2 L i) as [row Hrow]; [lia|].
  destruct (Hrows i row Hrow) as [Hrowlen Hcells].
  rewrite (getitem_nat _ _ _ Hrow). simpl.
  rewrite setitem_nat by lia. simpl.
  rewrite setitem_nat by lia.
  eexists. split; [reflexivity|]. split.
  - rewrite length_insert. exact Hlen.
  - intros i' row' Hrow'.
    destruct (decide (i' = i)) as [->|Hne].
    + rewrite list_lookup_insert_eq in Hrow' by lia.
      injection Hrow' as <-. split.
      * rewrite length_insert. exact Hrowlen.
      * intros j' Hb Hj'.
        destruct (decide (j' = j)) as [->|Hnej].
        -- apply list_lookup_insert_eq. lia.
        -- rewrite list_lookup_insert_ne by congruence.
           apply Hcells; [|exact Hj']. unfold before in *. lia.
    + rewrite list_lookup_insert_ne in Hrow' by congruence.
      destruct (Hrows i' row' Hrow') as [Hl' Hc']. split; [exact Hl'|].
      intros j' Hb Hj'. apply Hc'; [|exact Hj']. unfold before in *. lia.
Qed.

Lemma fill_cell_inv L i j :
  table_inv X Y i j L -> (i <= length X)%nat -> (j <= length Y)%nat ->
  exists L', fill_cell X Y L i j = inr L' /\ table_inv X Y i (S j) L'.
Proof.
  intros Hinv Hi Hj. unfold fill_cell.
  destruct i as [|i]; [|destruct j as [|j]].
  - cbn [Nat.eqb orb].
    pose proof (table_inv_setitem2 0 j L Hinv Hi Hj) as H.
    rewrite L_rec_0_l in H. exact H.
  - cbn [Nat.eqb orb].
    pose proof (table_inv_setitem2 (S i) 0 L Hinv Hi Hj) as H.
    rewrite L_rec_0_r in H. exact H.
  - cbn [Nat.eqb orb].
    destruct (lookup_lt_is_Some_2 X i) as [x Hx]; [lia|].
    destruct (lookup_lt_is_Some_2 Y j) as [y Hy]; [lia|].
    rewrite (getitem_pred _ _ _ Hx), (getitem_pred _ _ _ Hy). cbn [bind].
    pose proof (L_rec_S i j) as E.
    rewrite (tokens_match_lookup _ _ _ _ Hx Hy) in E.
    replace (Z.of_nat (S i) - 1) with (Z.of_nat i) by lia.
    replace (Z.of_nat (S j) - 1) with (Z.of_nat j) by lia.
    destruct (String.eqb x y).
    + rewrite (table_inv_getitem2 _ _ _ i j Hinv) by (unfold before; lia).
      cbn [bind]. rewrite <- E. apply table_inv_setitem2; assumption.
    + rewrite (table_inv_getitem2 _ _ _ i (S j) Hinv) by (unfold before; lia).
      cbn [bind].
      rewrite (table_inv_getitem2 _ _ _ (S i) j Hinv) by (unfold before; lia).
      cbn [bind]. rewrite <- E. apply table_inv_setitem2; assumption.
Qed.

Lemma fill_row_inv L i :
  table_inv X Y i 0 L -> (i <= length X)%nat ->
  exists L', fill_row X Y (length Y) L i = inr L' /\ table_inv X Y (S i) 0 L'.
Proof.
  intros Hinv Hi. unfold fill_row.
  destruct (for_range_inv (fun j L => table_inv X Y i j L)
              (fun L j => fill_cell X Y L i j) (length Y + 1) L Hinv)
    as (L' & E & [Hlen Hrows]).
  - intros k s Hk Hs. apply fill_cell_inv; [exact Hs | exact Hi | lia].
  - exists L'. split; [exact E|]. split; [exact Hlen|].
    intros i' row Hrow. destruct (Hrows i' row Hrow) as [Hl Hc].
    split; [exact Hl|]. intros j Hb Hj. apply Hc; [|exact Hj].
    unfold before in *. lia.
Qed.

Lemma zero_table_inv :
  table_inv X Y 0 0 (zero_table (length X) (length Y)).
Proof.
  unfold zero_table. split.
  - apply length_replicate.
  - intros i row Hrow. apply lookup_replicate in Hrow as [-> _]. split.
    + apply length_replicate.
    + intros j Hb. unfold before in Hb. lia.
Qed.

Lemma build_table_inv :
  exists L, build_table X Y = inr L
            /\ table_inv X Y (length X + 1) 0 L.
Proof.
  unfold build_table.
  apply (for_range_inv (fun i L => table_inv X Y i 0 L)).
  - apply zero_table_inv.
  - intros k s Hk Hs. apply fill_row_inv; [exact Hs | lia].
Qed.

(** Every cell of the finished table holds the value of the
    recurrence. *)
Lemma build_table_cells L i j :
  build_table X Y = inr L ->
  (i <= length X)%nat -> (j <= length Y)%nat ->
  getitem2 L (Z.of_nat i) (Z.of_nat j) = inr (L_rec X Y i j).
Proof.
  intros E Hi Hj. destruct build_table_inv as (L' & E' & Hinv).
  rewrite E in E'. injection E' as <-.
  eapply table_inv_getitem2; eauto. unfold before. lia.
Qed.
End LcsFacts.

(** ** Backtracking *)

Section BacktrackFacts.
Variables X Y : list token.
Variable L : table.
Hypothesis L_cells : forall i j,
  (i <= length X)%nat -> (j <= length Y)%nat ->
  getitem2 L (Z.of_nat i) (Z.of_nat j) = inr (L_rec X Y i j).

Lemma choose_lookup i j x y :
  X !! i = Some x -> Y !! j = Some y ->
  choose X Y L (S i) (S j) =
  inr (if String.eqb x y then Diagonal x
       else if L_rec X Y (S i) j <? L_rec X Y i (S j) then Up else Left).
Proof.
  intros Hx Hy. unfold choose.
  pose proof (lookup_lt_Some _ _ _ Hx) as Hi.
  pose proof (lookup_lt_Some _ _ _ Hy) as Hj.
  rewrite (getitem_pred _ _ _ Hx), (getitem_pred _ _ _ Hy). cbn [bind].
  destruct (String.eqb x y); [reflexivity|].
  replace (Z.of_nat (S i) - 1) with (Z.of_nat i) by lia.
  replace (Z.of_nat (S j) - 1) with (Z.of_nat j) by lia.
  rewrite (L_cells i (S j)) by lia. cbn [bind].
  rewrite (L_cells (S i) j) by lia. cbn [bind].
  destruct (_ <? _); reflexivity.
Qed.

Lemma backtrack_S i j index lcs :
  backtrack X Y L (S i) (S j) index lcs =
  (d <- choose X Y L (S i) (S j) ;;
   match d with
   | Diagonal x =>
       lcs' <- setitem lcs (index - 1) x ;;
       backtrack X Y L i j (index - 1) lcs'
   | Up => backtrack X Y L i (S j) index lcs
   | Left => backtrack X Y L (S i) j index lcs
   end).
Proof. reflexivity. Qed.

Lemma backtrack_0_l j index lcs : backtrack X Y L 0 j index lcs = inr lcs.
Proof. destruct j; reflexivity. Qed.

Lemma backtrack_0_r i index lcs : backtrack X Y L i 0 index lcs = inr lcs.
Proof. destruct i; reflexivity. Qed.

Lemma take_S_sublist {A} (l : list A) k : take k l `sublist_of` take (S k) l.
Proof.
  destruct (l !! k) as [a|] eqn:E.
  - rewrite (take_S_r _ _ _ E). apply sublist_inserts_r. reflexivity.
  - apply lookup_ge_None_1 in E.
    rewrite !take_ge by lia. reflexivity.
Qed.

(** The loop stores [index] tokens below position [index] of the
    array, leaves the rest of the array alone, and what it stores is a
    common subsequence of the two prefixes it walks through. *)
Lemma backtrack_spec i : forall j index lcs,
  (i <= length X)%nat -> (j <= length Y)%nat ->
  index = L_rec X Y i j -> index <= Z.of_nat (length lcs) ->
  exists s,
    backtrack X Y L i j index lcs = inr (s ++ drop (Z.to_nat index) lcs)
    /\ length s = Z.to_nat index
    /\ s `sublist_of` take i X /\ s `sublist_of` take j Y.
Proof.
  induction i as [|i IHi].
  - intros j index lcs _ _ -> _. rewrite backtrack_0_l, L_rec_0_l.
    exists []. repeat split; try reflexivity. apply sublist_nil_l.
  - induction j as [|j IHj]; intros index lcs Hi Hj Hindex Hlen.
    + subst index. rewrite backtrack_0_r, L_rec_0_r.
      exists []. repeat split; try reflexivity. apply sublist_nil_l.
    + destruct (lookup_lt_is_Some_2 X i) as [x Hx]; [lia|].
      destruct (lookup_lt_is_Some_2 Y j) as [y Hy]; [lia|].
      rewrite backtrack_S, (choose_lookup _ _ _ _ Hx Hy). cbn [bind].
      rewrite L_rec_S, (tokens_match_lookup _ _ _ _ _ _ Hx Hy) in Hindex.
      destruct (String.eqb x y) eqn:Exy.
      * apply String.eqb_eq in Exy. subst y.
        pose proof (L_rec_nonneg X Y i j) as Hnn.
        set (k := Z.to_nat (index - 1)).
        assert (Hk : index - 1 = Z.of_nat k) by (unfold k; lia).
        rewrite Hk, setitem_nat by lia. cbn [bind].
        destruct (IHi j (Z.of_nat k) (<[k := x]> lcs)) as (s & E & Hs & HsX & HsY);
          [lia | lia | lia | rewrite length_insert; lia |].
        rewrite E. exists (s ++ [x]). repeat split.
        -- f_equal. rewrite Nat2Z.id.
           rewrite (drop_S (<[k := x]> lcs) x k)
             by (apply list_lookup_insert_eq; lia).
           rewrite drop_insert_lt by lia.
           replace (Z.to_nat index) with (S k) by lia.
           rewrite <- app_assoc. reflexivity.
        -- rewrite length_app, Hs. simpl. lia.
        -- rewrite (take_S_r _ _ _ Hx). apply sublist_app; [exact HsX|reflexivity].
        -- rewrite (take_S_r _ _ _ Hy). apply sublist_app; [exact HsY|reflexivity].
      * destruct (L_rec X Y (S i) j <? L_rec X Y i (S j)) eqn:Ecmp.
        -- apply Z.ltb_lt in Ecmp.
           destruct (IHi (S j) index lcs) as (s & E & Hs & HsX & HsY);
             [lia | lia | lia | lia |].
           exists s. repeat split; try assumption.
           etransitivity; [exact HsX | apply take_S_sublist].
        -- apply Z.ltb_ge in Ecmp.
           destruct (IHj index lcs) as (s & E & Hs & HsX & HsY);
             [lia | lia | lia | lia |].
           exists s. repeat split; try assumption.
           etransitivity; [exact HsY | apply take_S_sublist].
Qed.
End BacktrackFacts.

(** ** [lcs] as a whole *)

Lemma sublist_same_length {A} (s l : list A) :
  s `sublist_of` l -> (length l <= length s)%nat -> s = l.
Proof.
  induction 1 as [|x s l Hsub IH|x s l Hsub IH]; intros Hlen.
  - reflexivity.
  - f_equal. apply IH. simpl in Hlen. lia.
  - apply sublist_length in Hsub. simpl in Hlen. lia.
Qed.

Lemma all_but_last_snoc {A} (s : list A) (rest : list A) :
  length rest = 1%nat -> all_but_last (s ++ rest) = s.
Proof.
  intros Hrest. unfold all_but_last. rewrite length_app, Hrest.
  replace (length s + 1 - 1)%nat with (length s) by lia.
  apply take_app_length.
Qed.

(** [lcs] returns: its table is the table of the recurrence, and the list
    it returns has the length found in the last cell and is a
    subsequence of both arguments. *)
Lemma lcs_spec (X Y : list token) :
  exists L s,
    build_table X Y = inr L /\ lcs X Y = inr s
    /\ Z.of_nat (length s) = L_rec X Y (length X) (length Y)
    /\ s `sublist_of` X /\ s `sublist_of` Y.
Proof.
  destruct (build_table_inv X Y) as (L & EL & Hinv).
  pose proof (build_table_cells X Y L) as Hcells.
  specialize (fun i j => Hcells i j EL).
  pose proof (L_rec_nonneg X Y (length X) (length Y)) as Hnn.
  set (index := L_rec X Y (length X) (length Y)) in *.
  set (k := Z.to_nat index).
  assert (Hk : index = Z.of_nat k) by (unfold k; lia).
  set (lcs0 := replicate (Z.to_nat (index + 1)) ""%string).
  assert (Hlen0 : length lcs0 = S k)
    by (unfold lcs0; rewrite length_replicate; lia).
  destruct (backtrack_spec X Y L Hcells (length X) (length Y) index
              (<[k := ""%string]> lcs0)) as (s & E & Hs & HsX & HsY);
    [lia | lia | reflexivity | rewrite length_insert; lia |].
  exists L, s. split; [exact EL|]. split; [|split; [lia|split]].
  - unfold lcs. rewrite EL. cbn [bind].
    rewrite Hcells by lia. cbn [bind]. fold index. fold lcs0.
    rewrite Hk at 1. rewrite setitem_nat by lia. cbn [bind].
    rewrite E. cbn [bind]. unfold ret. f_equal.
    apply all_but_last_snoc.
    rewrite length_drop, length_insert, Hlen0. fold k. lia.
  - rewrite take_ge in HsX by lia. exact HsX.
  - rewrite take_ge in HsY by lia. exact HsY.
Qed.

(** C1. For every pair of token lists [X] and [Y], [lcs(X, Y)] returns a
    list that is a subsequence of [X] and of [Y], and its length is the
    value of the cell [L[|X|][|Y|]] of the table the function builds;
    every cell [L[i][j]] of that table holds the value of the recurrence
    ([L[i-1][j-1] + 1] when the tokens match, else the maximum of
    [L[i-1][j]] and [L[i][j-1]]). *)
Theorem lcs_correct (X Y : list token) :
  exists L s,
    build_table X Y = inr L /\ lcs X Y = inr s
    /\ s `sublist_of` X /\ s `sublist_of` Y
    /\ getitem2 L (Z.of_nat (length X)) (Z.of_nat (length Y))
       = inr (Z.of_nat (length s))
    /\ forall i j, (i <= length X)%nat -> (j <= length Y)%nat ->
         getitem2 L (Z.of_nat i) (Z.of_nat j) = inr (L_rec X Y i j).
Proof.
  destruct (lcs_spec X Y) as (L & s & EL & Es & Hlen & HsX & HsY).
  exists L, s. repeat split; try assumption.
  - rewrite Hlen. apply build_table_cells; [exact EL | lia | lia].
  - intros i j Hi Hj. apply build_table_cells; assumption.
Qed.

Lemma lcs_correct_witness :
  exists L s,
    build_table ["a"; "b"; "c"] ["b"; "x"; "c"] = inr L
    /\ lcs ["a"; "b"; "c"] ["b"; "x"; "c"] = inr s
    /\ s `sublist_of` ["a"; "b"; "c"] /\ s `sublist_of` ["b"; "x"; "c"]
    /\ getitem2 L 3 3 = inr (Z.of_nat (length s))
    /\ getitem2 L 2 1 = inr (L_rec ["a"; "b"; "c"] ["b"; "x"; "c"] 2 1).
Proof.
  destruct (lcs_correct ["a"; "b"; "c"] ["b"; "x"; "c"])
    as (L & s & EL & Es & HX & HY & Hlast & Hcells).
  exists L, s. repeat split; try assumption.
  apply (Hcells 2%nat 1%nat); simpl; lia.
Defined.

Example lcs_ex1 :
  lcs ["a"; "b"; "c"; "d"] ["b"; "x"; "d"; "a"] = inr ["b"; "d"].
Proof. vm_compute. reflexivity. Qed.

Example lcs_ex2 : lcs [] ["a"] = inr [].
Proof. vm_compute. reflexivity. Qed.

(** The claim about ties, at the tokens [a b] against [b a]: the cells
    above and to the left of the last cell both hold 1, the tokens
    differ, and the loop moves left, which makes [lcs] return [b]; moving
    up would have stored [a]. *)
Lemma lcs_tie_not_up :
  exists L,
    build_table ["a"; "b"] ["b"; "a"] = inr L
    /\ getitem2 L 1 2 = inr 1 /\ getitem2 L 2 1 = inr 1
    /\ choose ["a"; "b"] ["b"; "a"] L 2 2 = inr Left
    /\ choose ["a"; "b"] ["b"; "a"] L 2 2 <> inr Up
    /\ lcs ["a"; "b"] ["b"; "a"] = inr ["b"].
Proof.
  eexists. split; [vm_compute; reflexivity|].
  repeat split; try (vm_compute; reflexivity).
  vm_compute. discriminate.
Qed.

(** C5 (amended). During backtracking, when the tokens [X[i-1]] and
    [Y[j-1]] differ and the cells [L[i-1][j]] and [L[i][j-1]] hold the
    same value, the loop moves left ([j -= 1], towards the start of the
    prediction) and not up: it goes on from [(i, j-1)] with the same
    [index] and array. *)
Theorem lcs_tie_moves_left (X Y : list token) (L : table) (i j : nat)
    (x y : token) (u : Z) (index : Z) (lcs : list token) :
  X !! i = Some x -> Y !! j = Some y -> x <> y ->
  getitem2 L (Z.of_nat i) (Z.of_nat (S j)) = inr u ->
  getitem2 L (Z.of_nat (S i)) (Z.of_nat j) = inr u ->
  choose X Y L (S i) (S j) = inr Left
  /\ backtrack X Y L (S i) (S j) index lcs = backtrack X Y L (S i) j index lcs.
Proof.
  intros Hx Hy Hne Hup Hleft.
  assert (E : choose X Y L (S i) (S j) = inr Left).
  { unfold choose.
    rewrite (getitem_pred _ _ _ Hx), (getitem_pred _ _ _ Hy). cbn [bind].
    destruct (String.eqb_spec x y) as [Heq|_]; [contradiction|].
    replace (Z.of_nat (S i) - 1) with (Z.of_nat i) by lia.
    replace (Z.of_nat (S j) - 1) with (Z.of_nat j) by lia.
    rewrite Hup, Hleft. cbn [bind]. rewrite Z.ltb_irrefl. reflexivity. }
  split; [exact E|].
  rewrite backtrack_S, E. reflexivity.
Qed.

Lemma lcs_tie_moves_left_witness :
  choose ["a"; "b"] ["b"; "a"] [[0; 0; 0]; [0; 0; 1]; [0; 1; 1]] 2 2 = inr Left
  /\ backtrack ["a"; "b"] ["b"; "a"] [[0; 0; 0]; [0; 0; 1]; [0; 1; 1]]
       2 2 1 [""; ""]
     = backtrack ["a"; "b"] ["b"; "a"] [[0; 0; 0]; [0; 0; 1]; [0; 1; 1]]
       2 1 1 [""; ""].
Proof.
  apply (lcs_tie_moves_left ["a"; "b"] ["b"; "a"]
           [[0; 0; 0]; [0; 0; 1]; [0; 1; 1]] 1 1 "b" "a" 1 1 [""; ""]).
  - reflexivity.
  - reflexivity.
  - discriminate.
  - reflexivity.
  - reflexivity.
Defined.

Lemma L_rec_diag (X : list token) i :
  (i <= length X)%nat -> L_rec X X i i = Z.of_nat i.
Proof.
  induction i as [|i IH]; intros Hi.
  - reflexivity.
  - destruct (lookup_lt_is_Some_2 X i) as [x Hx]; [lia|].
    rewrite L_rec_S, (tokens_match_lookup _ _ _ _ _ _ Hx Hx), String.eqb_refl.
    rewrite IH by lia. lia.
Qed.

(** C10. For every token list [X], [lcs(X, X)] returns [X]. *)
Theorem lcs_self (X : list token) : lcs X X = inr X.
Proof.
  destruct (lcs_spec X X) as (L & s & _ & Es & Hlen & HsX & _).
  rewrite Es. f_equal. apply sublist_same_length; [exact HsX|].
  rewrite L_rec_diag in Hlen by lia. lia.
Qed.

(** ** Greedy highlighting *)

Lemma count_true_replicate n : count_true (replicate n false) = O.
Proof.
  unfold count_true. induction n as [|n IH]; [reflexivity|].
  simpl. rewrite filter_cons_False by discriminate. exact IH.
Qed.

Lemma count_true_insert mask p :
  mask !! p = Some false ->
  count_true (<[p := true]> mask) = S (count_true mask).
Proof.
  unfold count_true. revert p. induction mask as [|b mask IH]; intros p Hp.
  - discriminate.
  - destruct p as [|p]; simpl in *.
    + injection Hp as ->.
      rewrite filter_cons_False by discriminate. reflexivity.
    + specialize (IH p Hp). destruct b.
      * rewrite !filter_cons_True by reflexivity. simpl. f_equal. exact IH.
      * rewrite !filter_cons_False by discriminate. exact IH.
Qed.

(** The scan stops at the first occurrence of the token, and what is
    left of the subsequence fits behind it. *)
Lemma scan_from_sublist rest : forall idx tok l,
  tok :: l `sublist_of` rest ->
  exists k, scan_from rest idx tok = inr (idx + k)%nat
            /\ rest !! k = Some tok
            /\ l `sublist_of` drop (S k) rest.
Proof.
  induction rest as [|t rest IH]; intros idx tok l Hsub.
  - apply sublist_nil_r in Hsub. discriminate.
  - simpl. destruct (String.eqb_spec t tok) as [->|Hne]; simpl.
    + exists O. split; [f_equal; lia|]. split; [reflexivity|].
      simpl. rewrite drop_0.
      inversion Hsub as [|x l1 l2 H1|x l1 l2 H1]; subst.
      * exact H1.
      * etransitivity; [|exact H1]. apply sublist_cons. reflexivity.
    + inversion Hsub as [|x l1 l2 H1|x l1 l2 H1]; subst; [contradiction|].
      destruct (IH (S idx) tok l H1) as (k & E & Hk & Hl).
      exists (S k). split; [rewrite E; f_equal; lia|].
      split; [exact Hk|exact Hl].
Qed.

Lemma side_step tokens tok rest c mask idx :
  side_inv tokens (tok :: rest) c mask idx ->
  exists p, scan tokens idx tok = inr p
            /\ (p < length mask)%nat
            /\ side_inv tokens rest (S c) (<[p := true]> mask) (p + 1).
Proof.
  intros (Hlen & Hfalse & Hcount & Hsub). unfold scan.
  destruct (scan_from_sublist _ idx tok rest Hsub) as (k & E & Hk & Hrest).
  rewrite lookup_drop in Hk.
  pose proof (lookup_lt_Some _ _ _ Hk) as Hlt.
  exists (idx + k)%nat. split; [exact E|]. split; [lia|].
  split; [rewrite length_insert; exact Hlen|]. split; [|split].
  - intros p Hp1 Hp2. rewrite list_lookup_insert_ne by lia.
    apply Hfalse; lia.
  - rewrite count_true_insert; [congruence|]. apply Hfalse; lia.
  - rewrite drop_drop in Hrest.
    replace (idx + k + 1)%nat with (idx + S k)%nat by lia. exact Hrest.
Qed.

Lemma mark_loop target pred l : forall st c,
  side_inv target l c (target_tokens_highlight st) (target_idx st) ->
  side_inv pred l c (pred_tokens_highlight st) (pred_idx st) ->
  exists st', for_ l (mark_token target pred) st = inr st'
    /\ count_true (target_tokens_highlight st') = (c + length l)%nat
    /\ count_true (pred_tokens_highlight st') = (c + length l)%nat
    /\ length (target_tokens_highlight st') = length target
    /\ length (pred_tokens_highlight st') = length pred.
Proof.
  induction l as [|tok l IH]; intros st c Ht Hp.
  - exists st. simpl. destruct Ht as (Hl1 & _ & Hc1 & _).
    destruct Hp as (Hl2 & _ & Hc2 & _).
    repeat split; try assumption; lia.
  - destruct (side_step _ _ _ _ _ _ Ht) as (ti & Eti & Hti & Ht').
    destruct (side_step _ _ _ _ _ _ Hp) as (pi & Epi & Hpi & Hp').
    simpl. unfold mark_token at 1. rewrite Eti, Epi. cbn [bind].
    rewrite !setitem_nat by assumption. cbn [bind ret].
    destruct (IH (Marks (<[ti := true]> (target_tokens_highlight st))
                        (<[pi := true]> (pred_tokens_highlight st))
                        (ti + 1) (pi + 1)) (S c) Ht' Hp')
      as (st' & E & H1 & H2 & H3 & H4).
    exists st'. split; [exact E|]. simpl. repeat split; try assumption; lia.
Qed.

Lemma side_inv_start tokens l :
  l `sublist_of` tokens ->
  side_inv tokens l 0 (replicate (length tokens) false) 0.
Proof.
  intros Hsub. split; [apply length_replicate|]. split; [|split].
  - intros p _ Hp. apply lookup_replicate_2, Hp.
  - apply count_true_replicate.
  - rewrite drop_0. exact Hsub.
Qed.

(** C2. For every reference token list and prediction token list, the
    highlighting loop of [ErrorCase.__init__] runs to its end, and the
    number of [True] entries of the reference mask equals the number of
    [True] entries of the prediction mask; both equal the length of the
    LCS.  Each mask has the length of its token list. *)
Theorem highlight_counts (target_tokens pred_tokens : list token) :
  exists lcs_tokens th ph,
    lcs target_tokens pred_tokens = inr lcs_tokens
    /\ highlight target_tokens pred_tokens = inr (th, ph)
    /\ count_true th = count_true ph
    /\ count_true th = length lcs_tokens
    /\ count_true ph = length lcs_tokens
    /\ length th = length target_tokens
    /\ length ph = length pred_tokens.
Proof.
  destruct (lcs_spec target_tokens pred_tokens)
    as (L & l & _ & El & _ & HsX & HsY).
  destruct (mark_loop target_tokens pred_tokens l
              (Marks (replicate (length target_tokens) false)
                     (replicate (length pred_tokens) false) 0 0) O
              (side_inv_start _ _ HsX) (side_inv_start _ _ HsY))
    as (st & E & H1 & H2 & H3 & H4).
  exists l, (target_tokens_highlight st), (pred_tokens_highlight st).
  split; [exact El|]. split.
  - unfold highlight. rewrite El. cbn [bind]. rewrite E. reflexivity.
  - repeat split; try assumption; lia.
Qed.

Example highlight_ex1 :
  highlight ["a"; "b"; "a"; "c"] ["x"; "a"; "a"; "c"; "b"]
  = inr ([true; false; true; true], [false; true; true; true; false]).
Proof. vm_compute. reflexivity. Qed.

(** ** Span extraction *)

Lemma tiling_app sp : forall a b sp' c,
  tiling a sp b -> tiling b sp' c -> tiling a (sp ++ sp') c.
Proof.
  induction sp as [|s sp IH]; intros a b sp' c H1 H2; simpl in *.
  - subst b. exact H2.
  - destruct H1 as (Hs & Hle & Hrest). repeat split; try assumption.
    eapply IH; eassumption.
Qed.

Lemma alternating_snoc sp s :
  alternating sp -> last_flag_differs sp (span_flag s) ->
  alternating (sp ++ [s]).
Proof.
  induction sp as [|s1 sp IH]; intros Halt Hlast; [exact I|].
  destruct sp as [|s2 sp].
  - simpl. split; [|exact I]. apply Hlast. reflexivity.
  - destruct Halt as [Hne Halt]. split; [exact Hne|].
    apply IH; [exact Halt|]. intros s0 Hs0. apply Hlast. exact Hs0.
Qed.

Lemma last_flag_differs_snoc sp s b :
  span_flag s <> b -> last_flag_differs (sp ++ [s]) b.
Proof.
  intros Hne s0 Hs0. rewrite last_snoc in Hs0. injection Hs0 as <-. exact Hne.
Qed.

Lemma flags_agree_snoc mask sp s :
  flags_agree mask sp ->
  (forall p, span_start s <= p <= span_end s ->
     mask !! Z.to_nat p = Some (span_flag s)) ->
  flags_agree mask (sp ++ [s]).
Proof.
  intros Hsp Hs s0 p Hin Hp.
  apply elem_of_app in Hin as [Hin|Hin].
  - apply Hsp; assumption.
  - apply list_elem_of_singleton in Hin. subst s0. apply Hs, Hp.
Qed.

(** A tiling covers each index of its range once and no other index. *)
Lemma tiling_cover sp : forall a b,
  tiling a sp b ->
  a <= b /\ forall p,
    cover_count p sp = if (a <=? p) && (p <? b) then 1%nat else 0%nat.
Proof.
  induction sp as [|s sp IH]; intros a b Ht; simpl in Ht.
  - subst b. split; [lia|]. intros p. unfold cover_count. simpl.
    destruct (Z.leb_spec a p), (Z.ltb_spec p a); simpl; try reflexivity; lia.
  - destruct Ht as (Hs & Hle & Hrest).
    destruct (IH _ _ Hrest) as [Hb Hcount]. split; [lia|].
    intros p. specialize (Hcount p). unfold cover_count in *.
    rewrite filter_cons. unfold covers at 1.
    destruct (decide _) as [Hc|Hc]; simpl; rewrite Hcount;
      destruct (Z.leb_spec (span_start s) p), (Z.leb_spec p (span_end s)),
        (Z.leb_spec (span_end s + 1) p), (Z.ltb_spec p b),
        (Z.leb_spec a p); simpl in *; try reflexivity; try lia;
      try congruence.
Qed.

(** The spans of a tiling lie inside its range, and an earlier span ends
    before a later one starts. *)
Lemma tiling_inside sp : forall a b j s,
  tiling a sp b -> sp !! j = Some s -> a <= span_start s /\ span_end s < b.
Proof.
  induction sp as [|s0 sp IH]; intros a b j s Ht Hj; [discriminate|].
  destruct Ht as (Hs & Hle & Hrest).
  destruct (tiling_cover _ _ _ Hrest) as [Hb _].
  destruct j as [|j]; simpl in Hj.
  - injection Hj as <-. lia.
  - destruct (IH _ _ _ _ Hrest Hj). lia.
Qed.

Lemma tiling_ordered sp : forall a b i j s1 s2,
  tiling a sp b -> (i < j)%nat ->
  sp !! i = Some s1 -> sp !! j = Some s2 -> span_end s1 < span_start s2.
Proof.
  induction sp as [|s0 sp IH]; intros a b i j s1 s2 Ht Hij H1 H2;
    [discriminate|].
  destruct Ht as (Hs & Hle & Hrest).
  destruct j as [|j]; [lia|]. simpl in H2.
  destruct i as [|i]; simpl in H1.
  - injection H1 as <-. destruct (tiling_inside _ _ _ _ _ Hrest H2). lia.
  - apply (IH _ _ i j s1 s2 Hrest); [lia | exact H1 | exact H2].
Qed.

Section GetSpansFacts.
Variable mask : list bool.

Lemma spans_inv_first_read k sp cs cb h :
  spans_inv mask k (SpanState sp cs cb) ->
  mask !! k = Some h -> h <> cb -> (1 <= k)%nat /\ cs < Z.of_nat k.
Proof.
  intros (_ & _ & _ & _ & Hcs & Hrun) Hh Hne. simpl in *.
  destruct k as [|k]; [|lia].
  rewrite (Hrun O) in Hh by lia. congruence.
Qed.

(** An iteration that is not the last one. *)
Lemma get_spans_step_inner k st :
  (S k < length mask)%nat -> spans_inv mask k st ->
  exists st', get_spans_step mask (Z.of_nat (length mask)) st k = inr st'
              /\ spans_inv mask (S k) st'.
Proof.
  intros Hk Hinv. destruct st as [sp cs cb].
  destruct (lookup_lt_is_Some_2 mask k) as [h Hh]; [lia|].
  unfold get_spans_step.
  replace (Z.of_nat k =? Z.of_nat (length mask) - 1) with false
    by (symmetry; apply Z.eqb_neq; lia).
  rewrite (getitem_nat _ _ _ Hh). cbn [bind].
  destruct (Bool.eqb h cb) eqn:E; cbn [negb].
  - apply Bool.eqb_prop in E. subst h.
    eexists. split; [reflexivity|].
    destruct Hinv as (Ht & Ha & Hl & Hf & Hcs & Hrun). simpl in *.
    unfold spans_inv. simpl. repeat split; try assumption; try lia.
    intros p Hp1 Hp2. destruct (decide (p = k)) as [->|Hne]; [exact Hh|].
    apply Hrun; lia.
  - apply Bool.eqb_false_iff in E.
    destruct (spans_inv_first_read _ _ _ _ _ Hinv Hh E) as [Hk1 Hlt].
    destruct Hinv as (Ht & Ha & Hl & Hf & Hcs & Hrun). simpl in *.
    eexists. split; [reflexivity|]. unfold spans_inv. simpl. repeat split.
    + eapply tiling_app; [exact Ht|]. simpl. unfold span_start, span_end.
      simpl. repeat split; lia.
    + apply alternating_snoc; assumption.
    + apply last_flag_differs_snoc. simpl. congruence.
    + apply flags_agree_snoc; [exact Hf|]. unfold span_start, span_end.
      simpl. intros p Hp. apply Hrun; lia.
    + lia.
    + lia.
    + intros p Hp1 Hp2. rewrite Nat2Z.id in Hp1.
      replace p with k by lia. exact Hh.
Qed.

(** The last iteration. *)
Lemma get_spans_step_last k st :
  S k = length mask -> spans_inv mask k st ->
  exists st', get_spans_step mask (Z.of_nat (length mask)) st k = inr st'
              /\ spans_done mask st'.
Proof.
  intros Hk Hinv. destruct st as [sp cs cb].
  destruct (lookup_lt_is_Some_2 mask k) as [h Hh]; [lia|].
  unfold get_spans_step.
  replace (Z.of_nat k =? Z.of_nat (length mask) - 1) with true
    by (symmetry; apply Z.eqb_eq; lia).
  rewrite (getitem_nat _ _ _ Hh). cbn [bind].
  destruct (Bool.eqb h cb) eqn:E; cbn [negb].
  - apply Bool.eqb_prop in E. subst h.
    destruct Hinv as (Ht & Ha & Hl & Hf & Hcs & Hrun). simpl in *.
    eexists. split; [reflexivity|]. unfold spans_done. simpl. repeat split.
    + eapply tiling_app; [exact Ht|]. simpl. unfold span_start, span_end.
      simpl. repeat split; lia.
    + apply alternating_snoc; assumption.
    + apply flags_agree_snoc; [exact Hf|]. unfold span_start, span_end.
      simpl. intros p Hp.
      destruct (decide (Z.to_nat p = k)) as [->|Hne]; [exact Hh|].
      apply Hrun; lia.
  - apply Bool.eqb_false_iff in E.
    destruct (spans_inv_first_read _ _ _ _ _ Hinv Hh E) as [Hk1 Hlt].
    destruct Hinv as (Ht & Ha & Hl & Hf & Hcs & Hrun). simpl in *.
    eexists. split; [reflexivity|]. unfold spans_done. simpl.
    change (sp ++ [(cs, Z.of_nat (length mask) - 2, cb);
                   (Z.of_nat (length mask) - 1, Z.of_nat (length mask) - 1, h)])
      with (sp ++ [(cs, Z.of_nat (length mask) - 2, cb)]
               ++ [(Z.of_nat (length mask) - 1, Z.of_nat (length mask) - 1, h)]).
    rewrite app_assoc. repeat split.
    + rewrite <- app_assoc. eapply tiling_app; [exact Ht|]. simpl.
      unfold span_start, span_end. simpl. repeat split; lia.
    + apply alternating_snoc.
      * apply alternating_snoc; assumption.
      * apply last_flag_differs_snoc. simpl. congruence.
    + apply flags_agree_snoc.
      * apply flags_agree_snoc; [exact Hf|]. unfold span_start, span_end.
        simpl. intros p Hp. apply Hrun; lia.
      * unfold span_start, span_end. simpl. intros p Hp.
        replace (Z.to_nat p) with k by lia. exact Hh.
Qed.

(** [get_spans] returns on a non-empty mask, with a span list that
    tiles the index range, alternates, and agrees with the mask. *)
Lemma get_spans_spec :
  mask <> [] ->
  exists sp, get_spans mask = inr sp /\ spans_done mask (SpanState sp 0 false).
Proof.
  intros Hne. destruct mask as [|first rest] eqn:Emask; [contradiction|].
  rewrite <- Emask in *.
  assert (Hfirst : mask !! O = Some first) by (rewrite Emask; reflexivity).
  assert (Hlen : (1 <= length mask)%nat) by (rewrite Emask; simpl; lia).
  unfold get_spans.
  pose proof (getitem_nat mask O first Hfirst) as Hget.
  change (Z.of_nat 0) with 0 in Hget. rewrite Hget. cbn [bind].
  destruct (for_range_inv
              (fun k st => ((k < length mask)%nat -> spans_inv mask k st)
                           /\ (k = length mask -> spans_done mask st))
              (get_spans_step mask (Z.of_nat (length mask)))
              (length mask) (SpanState [] 0 first))
    as (st & E & _ & Hdone).
  - split; [|lia]. intros _. unfold spans_inv. simpl. repeat split; try lia.
    + intros s Hs. discriminate.
    + intros s p Hs. apply elem_of_nil in Hs. contradiction.
    + intros p _ Hp. replace p with O by lia. exact Hfirst.
  - intros k st Hk [Hinv _]. specialize (Hinv Hk).
    destruct (decide (S k = length mask)) as [Hlast|Hinner].
    + destruct (get_spans_step_last k st Hlast Hinv) as (st' & E & Hd).
      exists st'. split; [exact E|]. split; [lia|]. intros _. exact Hd.
    + destruct (get_spans_step_inner k st ltac:(lia) Hinv) as (st' & E & Hi).
      exists st'. split; [exact E|]. split; [|lia]. intros _. exact Hi.
  - rewrite E. cbn [bind]. exists (spans st). split; [reflexivity|].
    exact (Hdone eq_refl).
Qed.
End GetSpansFacts.

(** C3. For every non-empty mask of length [n], [get_spans] returns a
    list of spans that are non-empty and contiguous from index [0] to
    index [n - 1]; an earlier span ends before a later one starts (they
    are ordered by start index and do not overlap); together they cover
    every index of [0 .. n-1] once and no other index; and no two
    neighbours carry the same flag.  Every span carries the flag its
    indices have in the mask, so the spans are the maximal runs. *)
Theorem get_spans_tiling (mask : list bool) :
  mask <> [] ->
  exists sp,
    get_spans mask = inr sp
    /\ tiling 0 sp (Z.of_nat (length mask))
    /\ (forall i j s1 s2, (i < j)%nat ->
          sp !! i = Some s1 -> sp !! j = Some s2 ->
          span_end s1 < span_start s2)
    /\ (forall p, cover_count p sp =
          if (0 <=? p) && (p <? Z.of_nat (length mask)) then 1%nat else 0%nat)
    /\ alternating sp
    /\ flags_agree mask sp.
Proof.
  intros Hne. destruct (get_spans_spec mask Hne) as (sp & E & Ht & Ha & Hf).
  simpl in *. exists sp. split; [exact E|]. split; [exact Ht|].
  split; [|split; [|split]].
  - intros i j s1 s2. apply (tiling_ordered sp 0 _ i j s1 s2 Ht).
  - apply (tiling_cover sp 0 _ Ht).
  - exact Ha.
  - exact Hf.
Qed.

Lemma get_spans_tiling_witness :
  [true; true; false; true] <> []
  /\ exists sp,
    get_spans [true; true; false; true] = inr sp
    /\ tiling 0 sp 4
    /\ (forall i j s1 s2, (i < j)%nat ->
          sp !! i = Some s1 -> sp !! j = Some s2 ->
          span_end s1 < span_start s2)
    /\ (forall p, cover_count p sp =
          if (0 <=? p) && (p <? 4) then 1%nat else 0%nat)
    /\ alternating sp
    /\ flags_agree [true; true; false; true] sp.
Proof.
  split; [discriminate|].
  apply (get_spans_tiling [true; true; false; true]). discriminate.
Defined.

Example get_spans_ex1 :
  get_spans [true; true; false; true]
  = inr [(0, 1, true); (2, 2, false); (3, 3, true)].
Proof. vm_compute. reflexivity. Qed.

(** C9. On the empty mask [get_spans] fails: reading [tokens_highlight[0]]
    raises [IndexError], the error a caller gets for this invalid input,
    and no span list is returned.  On every non-empty mask it returns a
    span list and does not raise. *)
Theorem get_spans_empty_fails :
  get_spans [] = inl IndexError
  /\ forall mask, mask <> [] -> exists sp, get_spans mask = inr sp.
Proof.
  split; [reflexivity|].
  intros mask Hne. destruct (get_spans_spec mask Hne) as (sp & E & _).
  exists sp. exact E.
Qed.

Lemma get_spans_empty_fails_witness :
  get_spans [] = inl IndexError
  /\ exists sp, get_spans [false] = inr sp.
Proof.
  destruct get_spans_empty_fails as [Hempty Hnonempty].
  split; [exact Hempty|]. apply (Hnonempty [false]). discriminate.
Defined.

(** ** Normalisation *)

(** The set of the pattern: every character of [string.punctuation]
    except the backslash, which escapes the bracket after it. *)
Lemma punctuation_set :
  let set := parse_set (String.length (punctuation +:+ "]"))
               (punctuation +:+ "]") in
  in_set set "'"%char = true
  /\ in_set set "\"%char = false
  /\ in_set set "-"%char = true
  /\ in_set set "]"%char = true
  /\ in_set set "a"%char = false.
Proof. vm_compute. repeat split. Qed.

Lemma remove_chars_drops (drop : ascii -> bool) c s :
  drop c = true -> ~ occurs c (remove_chars drop s).
Proof.
  intros Hc. induction s as [|d s IH]; simpl; [tauto|].
  destruct (drop d) eqn:Ed; [exact IH|].
  simpl. intros [->|H]; [congruence | exact (IH H)].
Qed.

Lemma replace_from_occurs old c s : forall skip,
  occurs c (replace_from old "" skip s) -> occurs c s.
Proof.
  induction s as [|d s IH]; intros skip; cbn [replace_from occurs]; [tauto|].
  destruct skip as [|k].
  - destruct (String.prefix old (String d s)); cbn [String.append occurs].
    + intros H. right. exact (IH _ H).
    + intros [->|H]; [left; reflexivity | right; exact (IH _ H)].
  - intros H. right. exact (IH _ H).
Qed.

Lemma lstrip_occurs c s : occurs c (lstrip s) -> occurs c s.
Proof.
  induction s as [|d s IH]; simpl; [tauto|].
  destruct (isspace d); [|exact (fun H => H)].
  intros H. right. exact (IH H).
Qed.

Lemma rstrip_occurs c s : occurs c (rstrip s) -> occurs c s.
Proof.
  induction s as [|d s IH]; simpl; [tauto|].
  destruct (rstrip s) as [|d' r].
  - destruct (isspace d); simpl; tauto.
  - simpl in *. tauto.
Qed.

Lemma lower_char_apostrophe d : lower_char d = "'"%char -> d = "'"%char.
Proof.
  destruct d as [[] [] [] [] [] [] [] []]; vm_compute; congruence.
Qed.

Lemma lower_occurs_apostrophe s :
  occurs "'"%char (lower s) -> occurs "'"%char s.
Proof.
  induction s as [|d s IH]; simpl; [tauto|].
  intros [H|H]; [left | right; exact (IH H)].
  symmetry. apply lower_char_apostrophe. symmetry. exact H.
Qed.

(** Whatever its arguments, [_remove_punctuation] returns a string
    without any apostrophe. *)
Lemma remove_punctuation_no_apostrophe word remove_spaces do_lower :
  ~ occurs "'"%char (_remove_punctuation word remove_spaces do_lower).
Proof.
  unfold _remove_punctuation.
  set (set := parse_set (String.length (punctuation +:+ "]"))
                (punctuation +:+ "]")).
  change (re_sub_set ("[" +:+ punctuation +:+ "]") word)
    with (remove_chars (in_set set) word).
  assert (Hset : in_set set "'"%char = true) by (vm_compute; reflexivity).
  pose proof (remove_chars_drops (in_set set) "'"%char word Hset) as Hre.
  intros H. apply Hre.
  assert (Hlower : forall s, occurs "'"%char (if do_lower then lower s else s)
                             -> occurs "'"%char s).
  { intros s0. destruct do_lower; [apply lower_occurs_apostrophe | tauto]. }
  apply Hlower in H. destruct remove_spaces; [|exact H].
  unfold strip, replace in H.
  apply rstrip_occurs, lstrip_occurs, replace_from_occurs,
    replace_from_occurs in H.
  exact H.
Qed.

(** C6 (the code at the failing input). With its default arguments
    [_remove_punctuation] removes the apostrophe, which its docstring
    says it keeps: [don't] becomes [dont] and [It's] becomes [its]; no
    word comes back with an apostrophe in it. *)
Theorem remove_punctuation_drops_apostrophe :
  _remove_punctuation "don't" true true = "dont"
  /\ _remove_punctuation "It's" true true = "its"
  /\ forall word, ~ occurs "'"%char (_remove_punctuation word true true).
Proof.
  split; [vm_compute; reflexivity|]. split; [vm_compute; reflexivity|].
  intros word. apply remove_punctuation_no_apostrophe.
Qed.

Example remove_punctuation_ex1 :
  _remove_punctuation "Mr. O'Neil - 2 dollars!" true true = "mroneil2dollars".
Proof. vm_compute. reflexivity. Qed.

(** ** The classification chain *)

Lemma trace_tbind {A B} (m : T A) (k : A -> T B) :
  trace (tbind m k) =
  trace m ++ match outcome m with
             | inr a => trace (k a)
             | inl _ => []
             end.
Proof.
  destruct m as [tr [e|a]]; unfold trace, outcome; simpl.
  - rewrite app_nil_r. reflexivity.
  - reflexivity.
Qed.

Lemma outcome_tbind {A B} (m : T A) (k : A -> T B) :
  outcome (tbind m k) =
  match outcome m with
  | inr a => outcome (k a)
  | inl e => inl e
  end.
Proof. destruct m as [tr [e|a]]; reflexivity. Qed.

Lemma trace_lift {A} (m : M A) : trace (lift m) = [].
Proof. reflexivity. Qed.

Lemma outcome_lift {A} (m : M A) : outcome (lift m) = m.
Proof. reflexivity. Qed.

Lemma tfor_raise {S X} (body : S -> X -> T S) x xs s e :
  outcome (body s x) = inl e -> outcome (tfor (x :: xs) body s) = inl e.
Proof. intros H. simpl. rewrite outcome_tbind, H. reflexivity. Qed.

(** An event of a loop is an event of one of its iterations. *)
Lemma tfor_trace {S X} (body : S -> X -> T S) xs : forall s ev,
  ev ∈ trace (tfor xs body s) ->
  exists x s', x ∈ xs /\ ev ∈ trace (body s' x).
Proof.
  induction xs as [|x xs IH]; intros s ev Hev; simpl in Hev.
  - apply elem_of_nil in Hev. contradiction.
  - rewrite trace_tbind in Hev. apply elem_of_app in Hev as [Hev|Hev].
    + exists x, s. split; [apply list_elem_of_here | exact Hev].
    + destruct (outcome (body s x)) as [e|s'].
      * apply elem_of_nil in Hev. contradiction.
      * destruct (IH s' ev Hev) as (x' & s'' & Hin & Hev').
        exists x', s''. split; [apply list_elem_of_further, Hin | exact Hev'].
Qed.

Section ClassifierFacts.
Variable remove_punctuation : string -> M string.

(** The chain leaves no other event than the call of the generator. *)
Lemma classify_trace normalizer _input pred target ev :
  ev ∈ trace (classify remove_punctuation normalizer _input pred target) ->
  exists text n, ev = Normalize text n.
Proof.
  unfold classify.
  destruct (String.eqb _ _); [intros H; apply elem_of_nil in H; contradiction|].
  destruct (String.eqb _ _); [intros H; apply elem_of_nil in H; contradiction|].
  destruct normalizer as [normalize|];
    [|intros H; apply elem_of_nil in H; contradiction].
  destruct _input as [inp|];
    [|intros H; apply elem_of_nil in H; contradiction].
  rewrite trace_tbind. intros H. apply elem_of_app in H as [H|H].
  - apply list_elem_of_singleton in H. eauto.
  - cbn [outcome emit snd] in H. unfold trace, lift, tbind in H.
    destruct (normalize _ _) as [e|wfst]; cbn in H;
      [apply elem_of_nil in H; contradiction|].
    destruct (map_M _ _) as [e|wfst']; cbn in H;
      [apply elem_of_nil in H; contradiction|].
    destruct (existsb _ _); cbn in H; apply elem_of_nil in H; contradiction.
Qed.

(** A verdict recorded by one iteration of the loop of [__init__] is
    the verdict of its own pair, whose prediction span is not
    highlighted. *)
Lemma classify_pair_verdict normalizer _input pred target cs
    ix pred_span target_span ix' v :
  Verdict ix' v ∈ trace (classify_pair remove_punctuation normalizer
                           _input pred target cs
                           (ix, (pred_span, target_span))) ->
  ix' = ix /\ span_flag pred_span = false.
Proof.
  destruct pred_span as [[start_pred end_pred] no_error_pred].
  destruct target_span as [[start_target end_target] no_error_target].
  unfold classify_pair. destruct no_error_pred; cbn [negb].
  - intros H. apply elem_of_nil in H. contradiction.
  - intros H. split; [|reflexivity].
    rewrite trace_tbind in H. apply elem_of_app in H as [H|H].
    + destruct no_error_target; simpl in H.
      * apply list_elem_of_singleton in H. discriminate.
      * apply elem_of_nil in H. contradiction.
    + destruct (outcome (if no_error_target then _ else _)) as [e|u];
        [apply elem_of_nil in H; contradiction|].
      rewrite trace_tbind in H. apply elem_of_app in H as [H|H].
      * apply classify_trace in H as (text & n & H). discriminate.
      * destruct (outcome (classify _ _ _ _ _)) as [e|v0];
          [apply elem_of_nil in H; contradiction|].
        rewrite trace_tbind in H. apply elem_of_app in H as [H|H].
        -- apply list_elem_of_singleton in H. congruence.
        -- simpl in H. destruct (bump v0 cs);
             apply elem_of_nil in H; contradiction.
Qed.
End ClassifierFacts.

Lemma elem_of_enumerate {A} (l : list A) ix x :
  (ix, x) ∈ zip (seq 0 (length l)) l -> l !! ix = Some x.
Proof.
  intros H. apply list_elem_of_lookup in H as [i Hi].
  apply lookup_zip_with_Some in Hi as (a & b & Heq & Ha & Hb).
  injection Heq as -> ->. apply lookup_seq in Ha as [-> _]. exact Hb.
Qed.



(** The claim about which pairs are classified, at the reference [a b] against the
    prediction [. a b]: the first reference span is highlighted (it is
    part of the LCS), the first prediction span is not, and the chain is
    run on the pair and ends in a verdict; the matched reference span is
    only reported by the question marks. *)
Lemma classified_despite_matched_reference :
  highlight (split " " "a b") (split " " ". a b")
    = inr ([true; true], [false; true; true])
  /\ get_spans [true; true] = inr [(0, 1, true)]
  /\ get_spans [false; true; true] = inr [(0, 0, false); (1, 2, true)]
  /\ trace (ErrorCase_init (fun _ => inl NameError)
              "a b" "a b" ". a b" "PLAIN" "tn" None)
     = [Question_marks 0; Verdict 0 Correct_with_no_punct].
Proof. repeat split; vm_compute; reflexivity. Qed.

(** C7 (amended). In [ErrorCase.__init__] the chain is run only on pairs
    of the positional [zip] of the prediction spans and the reference
    spans, and only on those whose prediction span is not highlighted;
    the flag of the reference span does not decide it. *)
Theorem classified_pairs_guard (remove_punctuation : string -> M string)
    (_input target pred classes mode : string)
    (normalizer : option normalize_t) (ix : nat) (v : verdict) :
  Verdict ix v ∈ trace (ErrorCase_init remove_punctuation
                          _input target pred classes mode normalizer) ->
  exists th ph target_spans pred_spans pred_span target_span,
    highlight (split " " target) (split " " pred) = inr (th, ph)
    /\ get_spans th = inr target_spans
    /\ get_spans ph = inr pred_spans
    /\ pred_spans !! ix = Some pred_span
    /\ target_spans !! ix = Some target_span
    /\ span_flag pred_span = false.
Proof.
  unfold ErrorCase_init. intros H.
  rewrite trace_tbind, trace_lift, outcome_lift in H. cbn [app] in H.
  destruct (highlight _ _) as [e|[th ph]] eqn:Ehl;
    [apply elem_of_nil in H; contradiction|].
  rewrite trace_tbind, trace_lift, outcome_lift in H. cbn [app fst snd] in H.
  destruct (get_spans th) as [e|tsp] eqn:Etsp;
    [apply elem_of_nil in H; contradiction|].
  rewrite trace_tbind, trace_lift, outcome_lift in H. cbn [app] in H.
  destruct (get_spans ph) as [e|psp] eqn:Epsp;
    [apply elem_of_nil in H; contradiction|].
  rewrite trace_tbind in H. apply elem_of_app in H as [H|H].
  - apply tfor_trace in H as ([ix' [ps ts]] & cs & Hin & Hev).
    apply classify_pair_verdict in Hev as [-> Hflag].
    apply elem_of_enumerate in Hin.
    apply lookup_zip_with_Some in Hin as (a & b & Heq & Ha & Hb).
    injection Heq as <- <-.
    exists th, ph, tsp, psp, ps, ts. repeat split; assumption || reflexivity.
  - destruct (outcome _); apply elem_of_nil in H; contradiction.
Qed.

Lemma classified_pairs_guard_witness :
  exists th ph target_spans pred_spans pred_span target_span,
    highlight (split " " "a b") (split " " ". a b") = inr (th, ph)
    /\ get_spans th = inr target_spans
    /\ get_spans ph = inr pred_spans
    /\ pred_spans !! O = Some pred_span
    /\ target_spans !! O = Some target_span
    /\ span_flag pred_span = false.
Proof.
  apply (classified_pairs_guard (fun _ => inl NameError)
           "a b" "a b" ". a b" "PLAIN" "tn" None O Correct_with_no_punct).
  apply list_elem_of_further, list_elem_of_here.
Defined.

(** The claim about a failing generator, at the record of [$2] with the
    prediction [2 dollars] and the reference [two dollars]: the local
    checks fail, the generator raises, and the exception leaves the chain
    and the whole of [filter_out_acceptable_errors]; no [Wrong] verdict
    is returned. *)
Lemma generator_failure_escapes :
  let failing : normalize_t := fun _ _ => inl (GenerationError "timeout") in
  let rp : string -> M string := fun _ => inl NameError in
  classify rp (Some failing) (Some "$2") "2 dollars" "two dollars"
    = ([Normalize "$2" 100000], inl (GenerationError "timeout"))
  /\ outcome (classify rp (Some failing) (Some "$2")
                "2 dollars" "two dollars") <> inr Wrong
  /\ filter_out_acceptable_errors rp true failing
       ["Original Input: $2"; "Predicted Str: 2 dollars";
        "Ground-Truth: two dollars"; "Original Input: plays"] "" "" ""
     = ([Normalize "$2" 100000], inl (GenerationError "timeout")).
Proof.
  repeat split; try (vm_compute; reflexivity). vm_compute. discriminate.
Qed.

(** [class_based_evaluation_cg.main] catches what its generator raises:
    the prediction falls back on the input text (without its spaces when
    the input is a URL). *)
Lemma cg_prediction_fallback (is_url : string -> bool)
    (cg_normalize : string -> M (list string)) (_input pred : string)
    (e : exn) :
  cg_normalize (if is_url _input then replace " " "" _input else _input)
    = inl e ->
  cg_prediction is_url cg_normalize true true _input pred
  = (if is_url _input then replace " " "" _input else _input).
Proof.
  intros Hfail. unfold cg_prediction. cbn [andb bind]. rewrite Hfail.
  reflexivity.
Qed.

(** C8 (amended). When the local checks of a pair fail and the generator
    raises, the chain calls the generator once and the exception
    propagates: out of the chain, out of the loop of
    [filter_out_acceptable_errors] at the record being read, and out of
    the loop body of [ErrorCase.__init__]; no verdict is returned for
    the pair.  Only the loop of [class_based_evaluation_cg.main] catches
    what its generator raises, and there the prediction becomes the
    input text. *)
Theorem generator_failure_propagates (remove_punctuation : string -> M string)
    (normalize : normalize_t) (_input pred target : string) (e : exn) :
  strip (_remove_punctuation pred true true)
    <> strip (_remove_punctuation target true true) ->
  replace "s" "z" (strip (_remove_punctuation pred true true))
    <> replace "s" "z" (strip (_remove_punctuation target true true)) ->
  normalize (strip (replace "``" "" _input)) 100000 = inl e ->
  classify remove_punctuation (Some normalize) (Some _input) pred target
    = ([Normalize (strip (replace "``" "" _input)) 100000], inl e)
  /\ (forall st line lines,
        f_input st = Some _input -> f_pred st = pred ->
        strip (after_colon line) = target ->
        String.prefix "Original Input" line = false ->
        String.prefix "Predicted Str" line = false ->
        String.prefix "Ground-Truth" line = true ->
        outcome (tfor (line :: lines)
                   (filter_line remove_punctuation (Some normalize)) st)
        = inl e)
  /\ (forall cs ix start_pred end_pred target_span,
        outcome (classify_pair remove_punctuation (Some normalize)
                   _input pred target cs
                   (ix, ((start_pred, end_pred, false), target_span)))
        = inl e)
  /\ (forall (is_url : string -> bool)
             (cg_normalize : string -> M (list string)),
        is_url _input = false -> cg_normalize _input = inl e ->
        cg_prediction is_url cg_normalize true true _input pred = _input).
Proof.
  intros Hne Hnez Hfail.
  assert (Hc : classify remove_punctuation (Some normalize) (Some _input)
                 pred target
               = ([Normalize (strip (replace "``" "" _input)) 100000], inl e)).
  { unfold classify.
    destruct (String.eqb_spec (strip (_remove_punctuation pred true true))
                (strip (_remove_punctuation target true true)))
      as [Heq|_]; [contradiction|].
    destruct (String.eqb_spec
                (replace "s" "z" (strip (_remove_punctuation pred true true)))
                (replace "s" "z" (strip (_remove_punctuation target true true))))
      as [Heq|_]; [contradiction|].
    unfold tbind, emit, lift. cbn [ret]. rewrite Hfail. reflexivity. }
  split; [exact Hc|]. split; [|split].
  - intros st line lines Hin Hpred Htarget H1 H2 H3.
    apply tfor_raise. unfold filter_line. rewrite H1, H2, H3.
    rewrite Hin, Hpred, Htarget, outcome_tbind, Hc. reflexivity.
  - intros cs ix start_pred end_pred [[start_target end_target] no_error_target].
    unfold classify_pair. cbn [negb].
    rewrite outcome_tbind.
    replace (outcome (if no_error_target then emit (Question_marks ix)
                      else tret tt)) with (@inr exn unit tt)
      by (destruct no_error_target; reflexivity).
    rewrite outcome_tbind, Hc. reflexivity.
  - intros is_url cg_normalize Hurl Hcg.
    pose proof (cg_prediction_fallback is_url cg_normalize _input pred e) as H.
    rewrite Hurl in H. apply H, Hcg.
Qed.

Lemma generator_failure_propagates_witness :
  classify (fun _ => inl NameError)
    (Some (fun _ _ => inl (GenerationError "timeout")))
    (Some "$2") "2 dollars" "two dollars"
  = ([Normalize "$2" 100000], inl (GenerationError "timeout")).
Proof.
  destruct (generator_failure_propagates (fun _ => inl NameError)
              (fun _ _ => inl (GenerationError "timeout"))
              "$2" "2 dollars" "two dollars" (GenerationError "timeout"))
    as [Hchain _].
  - vm_compute. discriminate.
  - vm_compute. discriminate.
  - reflexivity.
  - exact Hchain.
Defined.


(** * Further properties *)

(** ** [lcs] returns a longest common subsequence *)

Lemma sublist_snoc_inv {A} (s k : list A) (z x : A) :
  s ++ [z] `sublist_of` k ++ [x] ->
  (z = x /\ s `sublist_of` k) \/ s ++ [z] `sublist_of` k.
Proof.
  intros H. apply sublist_app_r in H as (l1 & l2 & E & H1 & H2).
  destruct l2 as [|a l2].
  - right. rewrite app_nil_r in E. rewrite E. exact H1.
  - assert (Hl2 : l2 = []).
    { apply sublist_length in H2. simpl in H2.
      destruct l2; [reflexivity | simpl in H2; lia]. }
    subst l2. apply app_inj_tail in E as [-> ->]. left. split; [|exact H1].
    inversion H2 as [|? ? ? _|? ? ? H3]; subst; [reflexivity|].
    apply sublist_nil_r in H3. discriminate.
Qed.

Lemma sublist_snoc_l {A} (s k : list A) (z : A) :
  s ++ [z] `sublist_of` k -> s `sublist_of` k.
Proof.
  intros H. etransitivity; [|exact H]. apply sublist_inserts_r. reflexivity.
Qed.

(** No common subsequence of two prefixes is longer than the value of the
    recurrence. *)
Lemma L_rec_upper (X Y : list token) i : forall j s,
  (i <= length X)%nat -> (j <= length Y)%nat ->
  s `sublist_of` take i X -> s `sublist_of` take j Y ->
  Z.of_nat (length s) <= L_rec X Y i j.
Proof.
  induction i as [|i IHi].
  - intros j s _ _ HX _. apply sublist_nil_r in HX. subst s.
    rewrite L_rec_0_l. simpl. lia.
  - induction j as [|j IHj]; intros s Hi Hj HX HY.
    + apply sublist_nil_r in HY. subst s. rewrite L_rec_0_r. simpl. lia.
    + destruct (lookup_lt_is_Some_2 X i) as [x Hx]; [lia|].
      destruct (lookup_lt_is_Some_2 Y j) as [y Hy]; [lia|].
      rewrite L_rec_S, (tokens_match_lookup _ _ _ _ _ _ Hx Hy).
      destruct s as [|z s' _] using rev_ind.
      { pose proof (L_rec_nonneg X Y (S i) (S j)) as Hnn.
        rewrite L_rec_S, (tokens_match_lookup _ _ _ _ _ _ Hx Hy) in Hnn.
        simpl. exact Hnn. }
      rewrite (take_S_r _ _ _ Hx) in HX. rewrite (take_S_r _ _ _ Hy) in HY.
      rewrite length_app. simpl.
      destruct (String.eqb_spec x y) as [Exy|Exy].
      * assert (HX' : s' `sublist_of` take i X).
        { apply sublist_snoc_inv in HX as [[_ H]|H];
            [exact H | exact (sublist_snoc_l _ _ _ H)]. }
        assert (HY' : s' `sublist_of` take j Y).
        { apply sublist_snoc_inv in HY as [[_ H]|H];
            [exact H | exact (sublist_snoc_l _ _ _ H)]. }
        specialize (IHi j s' ltac:(lia) ltac:(lia) HX' HY'). lia.
      * apply sublist_snoc_inv in HX as [[Hzx HX']|HX'].
        -- apply sublist_snoc_inv in HY as [[Hzy _]|HY']; [congruence|].
           assert (HX2 : s' ++ [z] `sublist_of` take (S i) X).
           { rewrite (take_S_r _ _ _ Hx), Hzx.
             apply sublist_app; [exact HX' | reflexivity]. }
           specialize (IHj (s' ++ [z]) Hi ltac:(lia) HX2 HY').
           rewrite length_app in IHj. simpl in IHj. lia.
        -- assert (HY2 : s' ++ [z] `sublist_of` take (S j) Y).
           { rewrite (take_S_r _ _ _ Hy). exact HY. }
           specialize (IHi (S j) (s' ++ [z]) ltac:(lia) Hj HX' HY2).
           rewrite length_app in IHi. simpl in IHi. lia.
Qed.

Lemma lcs_at_least (X Y s : list token) :
  s `sublist_of` X -> s `sublist_of` Y ->
  exists l, lcs X Y = inr l /\ (length s <= length l)%nat.
Proof.
  intros HX HY.
  destruct (lcs_spec X Y) as (L & l & _ & El & Hlen & _ & _).
  exists l. split; [exact El|].
  pose proof (L_rec_upper X Y (length X) (length Y) s) as Hup.
  rewrite !take_ge in Hup by lia.
  specialize (Hup ltac:(lia) ltac:(lia) HX HY). lia.
Qed.

(** X1. [lcs(X, Y)] is a longest common subsequence: every list that is
    a subsequence of [X] and of [Y] is at most as long as the list
    [lcs] returns. *)
Theorem lcs_longest (X Y s : list token) :
  s `sublist_of` X -> s `sublist_of` Y ->
  exists l, lcs X Y = inr l /\ (length s <= length l)%nat.
Proof. apply lcs_at_least. Qed.

Lemma lcs_longest_witness :
  exists l, lcs ["a"; "b"; "c"; "b"] ["b"; "c"; "a"; "b"] = inr l
            /\ (length ["b"; "c"; "b"] <= length l)%nat.
Proof.
  apply (lcs_longest ["a"; "b"; "c"; "b"] ["b"; "c"; "a"; "b"]
           ["b"; "c"; "b"]).
  - apply sublist_cons. repeat apply sublist_skip. apply sublist_nil.
  - apply sublist_skip, sublist_skip, sublist_cons, sublist_skip, sublist_nil.
Defined.

(** X2. Swapping the arguments of [lcs] does not change the length of
    the result (the result itself may change: [a b] against [b a] gives
    [b], and [b a] against [a b] gives [a]). *)
Theorem lcs_length_symmetric (X Y : list token) :
  exists l1 l2,
    lcs X Y = inr l1 /\ lcs Y X = inr l2 /\ length l1 = length l2.
Proof.
  destruct (lcs_spec X Y) as (L1 & l1 & _ & E1 & _ & H1X & H1Y).
  destruct (lcs_spec Y X) as (L2 & l2 & _ & E2 & _ & H2Y & H2X).
  exists l1, l2. split; [exact E1|]. split; [exact E2|].
  destruct (lcs_at_least X Y l2 H2X H2Y) as (l & El & Hle1).
  destruct (lcs_at_least Y X l1 H1Y H1X) as (l' & El' & Hle2).
  rewrite E1 in El. injection El as <-.
  rewrite E2 in El'. injection El' as <-. lia.
Qed.

(** X3. When one of the lists is empty, [lcs] returns the empty list;
    in general the result is no longer than either argument. *)
Theorem lcs_empty_and_bound (X Y : list token) :
  lcs X [] = inr [] /\ lcs [] Y = inr []
  /\ exists l, lcs X Y = inr l
       /\ (length l <= length X)%nat /\ (length l <= length Y)%nat.
Proof.
  split; [|split].
  - destruct (lcs_spec X []) as (L & l & _ & El & _ & _ & H).
    apply sublist_nil_r in H. subst l. exact El.
  - destruct (lcs_spec [] Y) as (L & l & _ & El & _ & H & _).
    apply sublist_nil_r in H. subst l. exact El.
  - destruct (lcs_spec X Y) as (L & l & _ & El & _ & HX & HY).
    exists l. split; [exact El|].
    split; apply sublist_length; assumption.
Qed.

(** ** The masks spell the LCS *)

Lemma marked_all_false n tokens : marked (replicate n false) tokens = [].
Proof.
  revert tokens. induction n as [|n IH]; intros [|t tokens]; simpl; auto.
Qed.

Lemma marked_tail_false mask : forall tokens,
  (forall q, (q < length mask)%nat -> mask !! q = Some false) ->
  marked mask tokens = [].
Proof.
  induction mask as [|b mask IH]; intros tokens Hfalse; [reflexivity|].
  destruct tokens as [|t tokens]; [reflexivity|]. simpl.
  pose proof (Hfalse O ltac:(simpl; lia)) as H0. injection H0 as ->.
  apply IH. intros q Hq. apply (Hfalse (S q)). simpl. lia.
Qed.

(** Marking a position behind which nothing is marked appends its token
    to what the mask marks. *)
Lemma marked_insert mask : forall tokens p tok,
  length mask = length tokens -> tokens !! p = Some tok ->
  (forall q, (p <= q)%nat -> (q < length tokens)%nat ->
     mask !! q = Some false) ->
  marked (<[p := true]> mask) tokens = marked mask tokens ++ [tok].
Proof.
  induction mask as [|b mask IH]; intros tokens p tok Hlen Hp Hfalse.
  - destruct tokens; [discriminate Hp | discriminate Hlen].
  - destruct tokens as [|t tokens]; [discriminate Hlen|].
    injection Hlen as Hlen. destruct p as [|p]; simpl in Hp.
    + injection Hp as ->.
      pose proof (Hfalse O ltac:(lia) ltac:(simpl; lia)) as H0.
      injection H0 as ->. simpl.
      rewrite (marked_tail_false mask tokens); [reflexivity|].
      intros q Hq. apply (Hfalse (S q)); simpl; lia.
    + simpl.
      assert (IH' : marked (<[p := true]> mask) tokens
                    = marked mask tokens ++ [tok]).
      { apply IH; [exact Hlen | exact Hp |].
        intros q Hq1 Hq2. apply (Hfalse (S q)); simpl; lia. }
      destruct b; rewrite IH'; reflexivity.
Qed.

Lemma side_step_marked tokens tok rest c mask idx :
  side_inv tokens (tok :: rest) c mask idx ->
  exists p, scan tokens idx tok = inr p
            /\ (p < length mask)%nat
            /\ side_inv tokens rest (S c) (<[p := true]> mask) (p + 1)
            /\ marked (<[p := true]> mask) tokens
               = marked mask tokens ++ [tok].
Proof.
  intros Hinv. pose proof Hinv as (Hlen & Hfalse & Hcount & Hsub).
  unfold scan.
  destruct (scan_from_sublist _ idx tok rest Hsub) as (k & E & Hk & Hrest).
  rewrite lookup_drop in Hk.
  pose proof (lookup_lt_Some _ _ _ Hk) as Hlt.
  destruct (side_step _ _ _ _ _ _ Hinv) as (p & Ep & Hp & Hinv').
  unfold scan in Ep. rewrite E in Ep. injection Ep as <-.
  exists (idx + k)%nat. split; [exact E|]. split; [exact Hp|].
  split; [exact Hinv'|].
  apply marked_insert; [exact Hlen | exact Hk |].
  intros q Hq1 Hq2. apply Hfalse; lia.
Qed.

Lemma mark_loop_marked target pred l : forall st c,
  side_inv target l c (target_tokens_highlight st) (target_idx st) ->
  side_inv pred l c (pred_tokens_highlight st) (pred_idx st) ->
  exists st', for_ l (mark_token target pred) st = inr st'
    /\ marked (target_tokens_highlight st') target
       = marked (target_tokens_highlight st) target ++ l
    /\ marked (pred_tokens_highlight st') pred
       = marked (pred_tokens_highlight st) pred ++ l.
Proof.
  induction l as [|tok l IH]; intros st c Ht Hp.
  - exists st. simpl. rewrite !app_nil_r. auto.
  - destruct (side_step_marked _ _ _ _ _ _ Ht) as (ti & Eti & Hti & Ht' & Mt).
    destruct (side_step_marked _ _ _ _ _ _ Hp) as (pi & Epi & Hpi & Hp' & Mp).
    simpl. unfold mark_token at 1. rewrite Eti, Epi. cbn [bind].
    rewrite !setitem_nat by assumption. cbn [bind ret].
    destruct (IH (Marks (<[ti := true]> (target_tokens_highlight st))
                        (<[pi := true]> (pred_tokens_highlight st))
                        (ti + 1) (pi + 1)) (S c) Ht' Hp')
      as (st' & E & H1 & H2).
    exists st'. split; [exact E|]. simpl in H1, H2.
    rewrite H1, H2, Mt, Mp, <- !app_assoc. auto.
Qed.

Lemma highlight_marked (target_tokens pred_tokens : list token) :
  exists lcs_tokens th ph,
    lcs target_tokens pred_tokens = inr lcs_tokens
    /\ highlight target_tokens pred_tokens = inr (th, ph)
    /\ length th = length target_tokens
    /\ length ph = length pred_tokens
    /\ marked th target_tokens = lcs_tokens
    /\ marked ph pred_tokens = lcs_tokens.
Proof.
  destruct (lcs_spec target_tokens pred_tokens)
    as (L & l & _ & El & _ & HsX & HsY).
  set (st0 := Marks (replicate (length target_tokens) false)
                    (replicate (length pred_tokens) false) 0 0).
  destruct (mark_loop_marked target_tokens pred_tokens l st0 O
              (side_inv_start _ _ HsX) (side_inv_start _ _ HsY))
    as (st & E & H1 & H2).
  destruct (mark_loop target_tokens pred_tokens l st0 O
              (side_inv_start _ _ HsX) (side_inv_start _ _ HsY))
    as (st' & E' & _ & _ & H3 & H4).
  rewrite E in E'. injection E' as <-.
  exists l, (target_tokens_highlight st), (pred_tokens_highlight st).
  split; [exact El|]. split.
  - unfold highlight. rewrite El. cbn [bind]. fold st0. rewrite E. reflexivity.
  - simpl in H1, H2. rewrite !marked_all_false in H1, H2. auto.
Qed.

(** X4. The two masks mark the same sequence of tokens: read in order,
    the marked tokens of the reference are the LCS, and so are the
    marked tokens of the prediction. *)
Theorem highlight_marks_lcs (target_tokens pred_tokens : list token) :
  exists lcs_tokens th ph,
    lcs target_tokens pred_tokens = inr lcs_tokens
    /\ highlight target_tokens pred_tokens = inr (th, ph)
    /\ marked th target_tokens = lcs_tokens
    /\ marked ph pred_tokens = lcs_tokens.
Proof.
  destruct (highlight_marked target_tokens pred_tokens)
    as (l & th & ph & El & Eh & _ & _ & H1 & H2).
  exists l, th, ph. auto.
Qed.

Lemma marked_length mask : forall tokens,
  (length (marked mask tokens) <= length tokens)%nat.
Proof.
  induction mask as [|b mask IH]; intros [|t tokens]; simpl; try lia.
  specialize (IH tokens). destruct b; simpl; lia.
Qed.

Lemma marked_all mask : forall tokens,
  length mask = length tokens -> marked mask tokens = tokens ->
  mask = replicate (length tokens) true.
Proof.
  induction mask as [|b mask IH]; intros [|t tokens] Hlen Hm;
    try discriminate; [reflexivity|].
  injection Hlen as Hlen. simpl in Hm. destruct b.
  - injection Hm as Hm. simpl. f_equal. apply IH; assumption.
  - pose proof (marked_length mask tokens) as Hle.
    rewrite Hm in Hle. simpl in Hle. lia.
Qed.

Lemma lcs_of_same (X : list token) : lcs X X = inr X.
Proof.
  destruct (lcs_spec X X) as (L & s & _ & Es & Hlen & HsX & _).
  rewrite Es. f_equal. apply sublist_same_length; [exact HsX|].
  rewrite L_rec_diag in Hlen by lia. lia.
Qed.

Lemma highlight_same (tokens : list token) :
  highlight tokens tokens
  = inr (replicate (length tokens) true, replicate (length tokens) true).
Proof.
  destruct (highlight_marked tokens tokens)
    as (l & th & ph & El & Eh & L1 & L2 & H1 & H2).
  rewrite lcs_of_same in El. injection El as <-.
  rewrite Eh. f_equal. f_equal; apply marked_all; assumption.
Qed.

Lemma marked_none mask : forall tokens,
  length mask = length tokens -> marked mask tokens = [] ->
  mask = replicate (length tokens) false.
Proof.
  induction mask as [|b mask IH]; intros [|t tokens] Hlen Hm;
    try discriminate; [reflexivity|].
  injection Hlen as Hlen. simpl in Hm. destruct b; [discriminate|].
  simpl. f_equal. apply IH; assumption.
Qed.

(** X5. The two ends of the alignment: a token list against itself is
    marked throughout on both sides, and against the empty list nothing
    is marked on the other side. *)
Theorem highlight_same_and_empty (tokens : list token) :
  highlight tokens tokens
    = inr (replicate (length tokens) true, replicate (length tokens) true)
  /\ highlight tokens [] = inr (replicate (length tokens) false, [])
  /\ highlight [] tokens = inr ([], replicate (length tokens) false).
Proof.
  split; [apply highlight_same|]. split.
  - destruct (highlight_marked tokens [])
      as (l & th & ph & El & Eh & L1 & L2 & H1 & H2).
    destruct ph; [|discriminate]. simpl in H2.
    rewrite Eh. f_equal. f_equal. apply marked_none; [exact L1 | congruence].
  - destruct (highlight_marked [] tokens)
      as (l & th & ph & El & Eh & L1 & L2 & H1 & H2).
    destruct th; [|discriminate]. simpl in H1.
    rewrite Eh. f_equal. f_equal. apply marked_none; [exact L2 | congruence].
Qed.

(** ** Tokens and their rendering *)

Lemma split_nonempty sep s : split sep s <> [].
Proof.
  destruct s as [|c s]; simpl; [discriminate|].
  destruct (Ascii.eqb c sep); [discriminate|].
  destruct (split sep s); discriminate.
Qed.

Lemma join_cons_sep sep w ws :
  ws <> [] -> join sep (w :: ws) = w +:+ sep +:+ join sep ws.
Proof. destruct ws; [contradiction | reflexivity]. Qed.

Lemma join_split sep s : join (String sep EmptyString) (split sep s) = s.
Proof.
  induction s as [|c s IH]; [reflexivity|]. simpl split.
  destruct (Ascii.eqb_spec c sep) as [->|Hne].
  - rewrite join_cons_sep by apply split_nonempty. rewrite IH. reflexivity.
  - pose proof (split_nonempty sep s) as Hnil.
    destruct (split sep s) as [|w ws]; [contradiction|].
    destruct ws as [|w' ws].
    + simpl in *. rewrite IH. reflexivity.
    + rewrite join_cons_sep by discriminate.
      rewrite join_cons_sep in IH by discriminate.
      rewrite <- IH. reflexivity.
Qed.

Lemma split_no_sep sep s w : w ∈ split sep s -> ~ occurs sep w.
Proof.
  revert w. induction s as [|c s IH]; intros w Hw; simpl in Hw.
  - apply list_elem_of_singleton in Hw. subst w. simpl. tauto.
  - destruct (Ascii.eqb_spec c sep) as [->|Hne].
    + apply elem_of_cons in Hw as [->|Hw]; [simpl; tauto | exact (IH w Hw)].
    + destruct (split sep s) as [|w0 ws] eqn:E.
      * apply list_elem_of_singleton in Hw. subst w. simpl.
        intros [H|[]]. congruence.
      * apply elem_of_cons in Hw as [->|Hw].
        -- simpl. intros [H|H]; [congruence|].
           apply (IH w0); [apply list_elem_of_here | exact H].
        -- apply IH. apply list_elem_of_further, Hw.
Qed.

(** X6. Splitting a string at the spaces and joining the pieces with a
    space gives the string back; there is always at least one piece, and
    no piece contains a space. *)
Theorem split_join_roundtrip (s : string) :
  join " " (split " " s) = s
  /\ split " " s <> []
  /\ forall w, w ∈ split " " s -> ~ occurs " "%char w.
Proof.
  split; [apply join_split|]. split; [apply split_nonempty|].
  intros w. apply split_no_sep.
Qed.

Lemma slice_in_range {A} (l : list A) (a b : Z) :
  0 <= a <= b -> b <= Z.of_nat (length l) ->
  slice l a b = take (Z.to_nat (b - a)) (drop (Z.to_nat a) l).
Proof.
  intros Hab Hb. unfold slice, slice_bound.
  replace (a <? 0) with false by (symmetry; apply Z.ltb_ge; lia).
  replace (b <? 0) with false by (symmetry; apply Z.ltb_ge; lia).
  replace (Z.to_nat (Z.min (Z.of_nat (length l)) (Z.max 0 a)))
    with (Z.to_nat a) by lia.
  replace (Z.to_nat (Z.min (Z.of_nat (length l)) (Z.max 0 b)))
    with (Z.to_nat b) by lia.
  f_equal. lia.
Qed.

(** The token groups of a tiling, one after the other, are the tokens of
    its range. *)
Lemma tiling_slices {A} (tokens : list A) sp : forall a b,
  tiling a sp b -> 0 <= a -> b <= Z.of_nat (length tokens) ->
  concat (map (fun s => slice tokens (span_start s) (span_end s + 1)) sp)
  = take (Z.to_nat (b - a)) (drop (Z.to_nat a) tokens).
Proof.
  induction sp as [|s sp IH]; intros a b Ht Ha Hb; simpl in Ht.
  - subst b. replace (a - a) with 0 by lia. reflexivity.
  - destruct Ht as (Hs & Hle & Hrest).
    destruct (tiling_cover _ _ _ Hrest) as [Hb' _].
    simpl. rewrite (IH _ _ Hrest) by lia.
    rewrite slice_in_range by lia. rewrite Hs.
    replace (Z.to_nat (span_end s + 1))
      with (Z.to_nat a + Z.to_nat (span_end s + 1 - a))%nat by lia.
    rewrite <- drop_drop, take_take_drop. f_equal. lia.
Qed.

Lemma get_spans_returns_nonempty mask sp :
  get_spans mask = inr sp -> mask <> [].
Proof. intros E ->. discriminate E. Qed.

(** X7. [get_spans_html] renders the token groups
    [tokens[start : end + 1]] of the spans; for the spans [get_spans]
    extracts from a mask as long as the token list, these groups, one
    after the other, are the token list: no token is lost, repeated or
    moved. *)
Theorem spans_partition_tokens (mask : list bool) (tokens : list token)
    (sp : list span) :
  length mask = length tokens -> get_spans mask = inr sp ->
  concat (map (fun s => slice tokens (span_start s) (span_end s + 1)) sp)
  = tokens.
Proof.
  intros Hlen E.
  destruct (get_spans_spec mask (get_spans_returns_nonempty _ _ E))
    as (sp' & E' & Ht & _ & _).
  rewrite E in E'. injection E' as <-. simpl in Ht.
  rewrite (tiling_slices tokens sp 0 _ Ht) by lia.
  rewrite drop_0, take_ge by lia. reflexivity.
Qed.

Lemma spans_partition_tokens_witness :
  concat (map (fun s => slice ["a"; "b"; "c"; "d"]
                          (span_start s) (span_end s + 1))
            [(0, 1, true); (2, 2, false); (3, 3, true)])
  = ["a"; "b"; "c"; "d"].
Proof.
  apply (spans_partition_tokens [true; true; false; true]
           ["a"; "b"; "c"; "d"]); reflexivity.
Defined.

(** A mask with one value gives one span. *)
Lemma get_spans_constant n b :
  get_spans (replicate (S n) b) = inr [(0, Z.of_nat n, b)].
Proof.
  destruct (get_spans_spec (replicate (S n) b)) as (sp & E & Ht & Ha & Hf);
    [discriminate|].
  simpl spans in *. rewrite length_replicate in Ht.
  assert (Hflag : forall j s, sp !! j = Some s -> span_flag s = b).
  { intros j s Hj. destruct (tiling_inside _ _ _ _ _ Ht Hj) as [H1 H2].
    assert (Hle : span_start s <= span_end s).
    { clear - Ht Hj. revert Ht Hj. generalize 0. revert j.
      induction sp as [|s0 sp IH]; intros j a Ht Hj; [discriminate|].
      destruct Ht as (_ & Hle & Hrest). destruct j as [|j]; simpl in Hj.
      - injection Hj as <-. exact Hle.
      - exact (IH _ _ Hrest Hj). }
    pose proof (Hf s (span_start s) (list_elem_of_lookup_2 _ _ _ Hj)
                  ltac:(lia)) as Hm.
    apply lookup_replicate in Hm as [Hm _]. congruence. }
  rewrite E. f_equal.
  destruct sp as [|s1 sp]; [simpl in Ht; lia|].
  destruct sp as [|s2 sp].
  - destruct Ht as (Hs & _ & Hend). simpl in Hend.
    pose proof (Hflag O s1 eq_refl) as Hb.
    destruct s1 as [[st en] fl]. unfold span_start, span_end, span_flag in *.
    simpl in *. subst st fl. replace en with (Z.of_nat n) by lia.
    reflexivity.
  - destruct Ha as [Hne _].
    rewrite (Hflag O s1 eq_refl), (Hflag 1%nat s2 eq_refl) in Hne.
    contradiction.
Qed.

(** ** What [ErrorCase.__init__] returns *)

Lemma tbind_lift_inr {A B} (a : A) (k : A -> T B) :
  tbind (lift (inr a)) k = k a.
Proof. unfold tbind, lift. simpl. destruct (k a). reflexivity. Qed.

Lemma tbind_nil_inr {A B} (a : A) (k : A -> T B) :
  tbind ([], inr a) k = k a.
Proof. apply (tbind_lift_inr a k). Qed.

Lemma Forall_zip_snd {A B} (P : B -> Prop) (k : list A) (l : list B) :
  Forall P l -> Forall (fun p => P p.2) (zip k l).
Proof.
  intros H. revert k. induction H as [|x l Hx Hl IH]; intros [|a k];
    simpl; constructor; auto.
Qed.

Lemma Exists_zip_seq {B} (P : B -> Prop) (l : list B) : forall a,
  Exists P l -> Exists (fun p => P p.2) (zip (seq a (length l)) l).
Proof.
  induction l as [|x l IH]; intros a H; inversion H; subst; simpl.
  - apply Exists_cons_hd. assumption.
  - apply Exists_cons_tl. apply IH. assumption.
Qed.

Section InitFacts.
Variable remove_punctuation : string -> M string.
Variable normalizer : option normalize_t.
Variables _input pred target : string.

Lemma classify_pair_highlighted cs ix pred_span target_span :
  span_flag pred_span = true ->
  classify_pair remove_punctuation normalizer _input pred target cs
    (ix, (pred_span, target_span)) = ([], inr cs).
Proof.
  destruct pred_span as [[a b] f], target_span as [[c d] g].
  unfold span_flag. simpl. intros ->. reflexivity.
Qed.

Lemma bump_unbound v : bump v unbound_counters = inl UnboundLocalError.
Proof. destruct v; reflexivity. Qed.

(** With the counters unbound, a pair whose prediction span is not
    highlighted ends the constructor with an exception. *)
Lemma classify_pair_unbound ix pred_span target_span :
  span_flag pred_span = false ->
  exists e,
    outcome (classify_pair remove_punctuation normalizer _input pred target
               unbound_counters (ix, (pred_span, target_span))) = inl e.
Proof.
  destruct pred_span as [[a b] f], target_span as [[c d] g].
  unfold span_flag. cbn [snd]. intros ->. unfold classify_pair. cbn [negb].
  rewrite outcome_tbind.
  replace (outcome (if g then emit (Question_marks ix) else tret tt))
    with (@inr exn unit tt) by (destruct g; reflexivity).
  rewrite outcome_tbind.
  destruct (outcome (classify _ _ _ _ _)) as [e|v]; [eauto|].
  rewrite outcome_tbind. simpl. rewrite bump_unbound. eauto.
Qed.

Lemma tfor_all_highlighted l : forall cs,
  Forall (fun p : nat * (span * span) => span_flag p.2.1 = true) l ->
  tfor l (classify_pair remove_punctuation normalizer _input pred target) cs
  = ([], inr cs).
Proof.
  induction l as [|[ix [ps ts]] l IH]; intros cs H; [reflexivity|].
  inversion H as [|? ? Hp Hl]; subst. simpl in Hp. cbn [tfor].
  rewrite (classify_pair_highlighted cs ix ps ts Hp).
  rewrite tbind_nil_inr. apply IH, Hl.
Qed.

Lemma tfor_some_unhighlighted l :
  Exists (fun p : nat * (span * span) => span_flag p.2.1 = false) l ->
  exists e,
    outcome (tfor l (classify_pair remove_punctuation normalizer
                       _input pred target) unbound_counters) = inl e.
Proof.
  induction l as [|[ix [ps ts]] l IH]; intros H; [inversion H|].
  destruct (span_flag ps) eqn:Ef.
  - inversion H as [? ? Hp|? ? Hl]; subst; [simpl in Hp; congruence|].
    destruct (IH Hl) as [e He]. exists e. cbn [tfor].
    rewrite (classify_pair_highlighted _ ix ps ts Ef).
    rewrite tbind_nil_inr. exact He.
  - destruct (classify_pair_unbound ix ps ts Ef) as [e He].
    exists e. apply tfor_raise, He.
Qed.
End InitFacts.

(** X8. [ErrorCase.__init__] always gets through the alignment and the
    span extraction.  It returns, without having classified anything,
    when every prediction span the [zip] pairs is highlighted; as soon
    as one of them is not, it raises (the counters it increments are
    never bound, when nothing else has failed before). *)
Theorem init_returns_or_raises (remove_punctuation : string -> M string)
    (_input target pred classes mode : string)
    (normalizer : option normalize_t) :
  exists th ph target_spans pred_spans,
    highlight (split " " target) (split " " pred) = inr (th, ph)
    /\ get_spans th = inr target_spans
    /\ get_spans ph = inr pred_spans
    /\ (Forall (fun p => span_flag p.1 = true) (zip pred_spans target_spans) ->
        ErrorCase_init remove_punctuation _input target pred classes mode
          normalizer
        = ([], inr (MkErrorCase (split " " target) (split " " pred)
                      target_spans pred_spans)))
    /\ (Exists (fun p => span_flag p.1 = false) (zip pred_spans target_spans) ->
        exists e,
          outcome (ErrorCase_init remove_punctuation _input target pred
                     classes mode normalizer) = inl e).
Proof.
  destruct (highlight_marked (split " " target) (split " " pred))
    as (l & th & ph & _ & Eh & L1 & L2 & _ & _).
  assert (Hth : th <> []).
  { intros ->. destruct (split " " target) eqn:E; [|discriminate].
    exact (split_nonempty _ _ E). }
  assert (Hph : ph <> []).
  { intros ->. destruct (split " " pred) eqn:E; [|discriminate].
    exact (split_nonempty _ _ E). }
  destruct (get_spans_spec th Hth) as (tsp & Et & _).
  destruct (get_spans_spec ph Hph) as (psp & Ep & _).
  exists th, ph, tsp, psp. split; [exact Eh|]. split; [exact Et|].
  split; [exact Ep|].
  assert (Hunfold : ErrorCase_init remove_punctuation _input target pred
                      classes mode normalizer
                    = tbind (tfor (zip (seq 0 (length (zip psp tsp)))
                                     (zip psp tsp))
                               (classify_pair remove_punctuation normalizer
                                  _input pred target) unbound_counters)
                        (fun _ => tret (MkErrorCase (split " " target)
                                          (split " " pred) tsp psp))).
  { unfold ErrorCase_init. rewrite Eh, tbind_lift_inr. cbn [fst snd].
    rewrite Et, tbind_lift_inr, Ep, tbind_lift_inr. reflexivity. }
  split.
  - intros Hall. rewrite Hunfold.
    rewrite (tfor_all_highlighted remove_punctuation normalizer
               _input pred target).
    + reflexivity.
    + apply (Forall_zip_snd (fun q : span * span => span_flag q.1 = true)).
      exact Hall.
  - intros Hex. rewrite Hunfold, outcome_tbind.
    destruct (tfor_some_unhighlighted remove_punctuation normalizer
                _input pred target
                (zip (seq 0 (length (zip psp tsp))) (zip psp tsp)))
      as [e He].
    + apply (Exists_zip_seq (fun q : span * span => span_flag q.1 = false)).
      exact Hex.
    + exists e. rewrite He. reflexivity.
Qed.

Lemma init_returns_or_raises_witness :
  exists e,
    outcome (ErrorCase_init (fun _ => inl NameError) "a c" "a b" "a c"
               "PLAIN" "tn" None) = inl e.
Proof.
  destruct (init_returns_or_raises (fun _ => inl NameError)
              "a c" "a b" "a c" "PLAIN" "tn" None)
    as (th & ph & tsp & psp & Eh & Et & Ep & _ & Hraise).
  vm_compute in Eh. injection Eh as <- <-.
  vm_compute in Et. injection Et as <-.
  vm_compute in Ep. injection Ep as <-.
  apply Hraise. apply Exists_cons_tl, Exists_cons_hd. reflexivity.
Defined.

(** X9. When the prediction is the reference, [ErrorCase.__init__]
    returns without an event: each side is one highlighted span over all
    its tokens, and [get_spans_html] renders it as the original string
    inside one red span. *)
Theorem init_identical (remove_punctuation : string -> M string)
    (_input text classes mode : string) (normalizer : option normalize_t) :
  let tokens := split " " text in
  let sp := [(0, Z.of_nat (length tokens) - 1, true)] in
  ErrorCase_init remove_punctuation _input text text classes mode normalizer
    = ([], inr (MkErrorCase tokens tokens sp sp))
  /\ get_spans_html sp tokens = format_span "red" text.
Proof.
  intros tokens sp.
  assert (Hn : exists n, length tokens = S n).
  { pose proof (split_nonempty " " text) as H. fold tokens in H.
    destruct tokens; [contradiction | simpl; eauto]. }
  destruct Hn as [n Hn].
  assert (Hsp : sp = [(0, Z.of_nat n, true)]).
  { unfold sp. rewrite Hn. repeat f_equal. lia. }
  split.
  - unfold ErrorCase_init. fold tokens.
    rewrite highlight_same, tbind_lift_inr. cbn [fst snd].
    rewrite Hn, get_spans_constant, !tbind_lift_inr, <- Hsp.
    unfold sp. reflexivity.
  - rewrite Hsp. unfold get_spans_html. cbn [fold_left String.append].
    rewrite slice_in_range by lia.
    rewrite drop_0, take_ge by lia.
    unfold tokens. rewrite join_split. reflexivity.
Qed.

(** ** What [_remove_punctuation] leaves *)

Lemma prefix_single a d s :
  String.prefix (String a EmptyString) (String d s) = Ascii.eqb a d.
Proof.
  simpl. destruct (ascii_dec a d) as [->|Hne].
  - rewrite Ascii.eqb_refl. destruct s; reflexivity.
  - symmetry. apply Ascii.eqb_neq. exact Hne.
Qed.

Lemma replace_char_step a d s :
  replace_from (String a EmptyString) "" 0 (String d s)
  = if Ascii.eqb a d then replace_from (String a EmptyString) "" 0 s
    else String d (replace_from (String a EmptyString) "" 0 s).
Proof.
  cbn [replace_from]. rewrite prefix_single.
  destruct (Ascii.eqb a d); reflexivity.
Qed.

Lemma remove_chars_occurs (drop : ascii -> bool) c s :
  occurs c (remove_chars drop s) -> drop c = false /\ occurs c s.
Proof.
  induction s as [|d s IH]; simpl; [tauto|].
  destruct (drop d) eqn:Ed.
  - intros H. destruct (IH H). tauto.
  - simpl. intros [->|H]; [tauto|]. destruct (IH H). tauto.
Qed.

Lemma replace_char_occurs a c s :
  occurs c (replace (String a EmptyString) "" s) -> c <> a /\ occurs c s.
Proof.
  unfold replace. induction s as [|d s IH]; [simpl; tauto|].
  rewrite replace_char_step. destruct (Ascii.eqb_spec a d) as [->|Hne].
  - intros H. destruct (IH H). simpl. tauto.
  - simpl. intros [->|H]; [split; [congruence | tauto]|].
    destruct (IH H). tauto.
Qed.

Lemma lower_occurs c s :
  occurs c (lower s) -> exists d, occurs d s /\ c = lower_char d.
Proof.
  induction s as [|d s IH]; simpl; [tauto|].
  intros [->|H]; [eauto|]. destruct (IH H) as (d' & Hd & ->). eauto.
Qed.

Lemma lower_char_kept d :
  in_set punctuation_class (lower_char d) = in_set punctuation_class d
  /\ Ascii.eqb (lower_char d) " " = Ascii.eqb d " "
  /\ Ascii.eqb (lower_char d) "160" = Ascii.eqb d "160"
  /\ Ascii.eqb "\" (lower_char d) = Ascii.eqb "\" d
  /\ isspace (lower_char d) = isspace d
  /\ lower_char (lower_char d) = lower_char d.
Proof.
  destruct d as [[] [] [] [] [] [] [] []]; vm_compute; repeat split.
Qed.

Lemma re_sub_punctuation word :
  re_sub_set ("[" +:+ punctuation +:+ "]") word
  = remove_chars (in_set punctuation_class) word.
Proof. vm_compute. reflexivity. Qed.

(** The characters of the string after the removals and before the
    lower-casing. *)
Lemma stripped_chars word c :
  occurs c (strip (replace NBSP "" (replace " " ""
              (remove_chars (in_set punctuation_class) word)))) ->
  in_set punctuation_class c = false /\ c <> " "%char /\ c <> "160"%char.
Proof.
  intros H. unfold strip in H.
  apply rstrip_occurs, lstrip_occurs in H.
  apply replace_char_occurs in H as [H1 H].
  apply replace_char_occurs in H as [H2 H].
  apply remove_chars_occurs in H as [H3 _]. auto.
Qed.

Lemma remove_punctuation_chars word do_lower c :
  occurs c (_remove_punctuation word true do_lower) ->
  in_set punctuation_class c = false /\ c <> " "%char /\ c <> "160"%char.
Proof.
  unfold _remove_punctuation. rewrite re_sub_punctuation.
  destruct do_lower; [|apply stripped_chars].
  intros H. apply lower_occurs in H as (d & Hd & ->).
  apply stripped_chars in Hd as (H1 & H2 & H3).
  destruct (lower_char_kept d) as (K1 & K2 & K3 & _).
  rewrite K1. split; [exact H1|]. split.
  - intros E. apply Ascii.eqb_eq in E. rewrite K2 in E.
    apply Ascii.eqb_eq in E. contradiction.
  - intros E. apply Ascii.eqb_eq in E. rewrite K3 in E.
    apply Ascii.eqb_eq in E. contradiction.
Qed.

(** X10. With [remove_spaces] set, whatever [_remove_punctuation]
    returns contains no space, no U+00A0 and no character of the set of
    its pattern. *)
Theorem remove_punctuation_clean (word : string) (do_lower : bool) (c : ascii) :
  occurs c (_remove_punctuation word true do_lower) ->
  in_set punctuation_class c = false /\ c <> " "%char /\ c <> "160"%char.
Proof. apply remove_punctuation_chars. Qed.

Lemma remove_punctuation_clean_witness :
  in_set punctuation_class "d"%char = false
  /\ "d"%char <> " "%char /\ "d"%char <> "160"%char.
Proof.
  apply (remove_punctuation_clean "Don't go." true "d"%char).
  vm_compute. tauto.
Defined.

(** *** Stripping *)

Lemma lstrip_starts_nonspace s : starts_nonspace (lstrip s).
Proof.
  induction s as [|c s IH]; simpl; [exact I|].
  destruct (isspace c) eqn:E; [exact IH | exact E].
Qed.

Lemma rstrip_starts_nonspace s : starts_nonspace s -> starts_nonspace (rstrip s).
Proof.
  destruct s as [|c s]; simpl; [auto|]. intros Hc.
  destruct (rstrip s); [rewrite Hc|]; exact Hc.
Qed.

Lemma lstrip_id s : starts_nonspace s -> lstrip s = s.
Proof. destruct s as [|c s]; simpl; [auto|]. intros ->. reflexivity. Qed.

Lemma rstrip_idempotent s : rstrip (rstrip s) = rstrip s.
Proof.
  induction s as [|c s IH]; [reflexivity|]. cbn [rstrip].
  destruct (rstrip s) as [|d r] eqn:E.
  - destruct (isspace c) eqn:Ec; [reflexivity|]. simpl. rewrite Ec. reflexivity.
  - cbn [rstrip]. cbn [rstrip] in IH. rewrite IH. reflexivity.
Qed.

Lemma strip_idempotent s : strip (strip s) = strip s.
Proof.
  unfold strip.
  rewrite (lstrip_id (rstrip (lstrip s)))
    by apply rstrip_starts_nonspace, lstrip_starts_nonspace.
  apply rstrip_idempotent.
Qed.

Lemma lstrip_lower s : lstrip (lower s) = lower (lstrip s).
Proof.
  induction s as [|c s IH]; [reflexivity|]. simpl.
  destruct (lower_char_kept c) as (_ & _ & _ & _ & K & _). rewrite K.
  destruct (isspace c); [exact IH | reflexivity].
Qed.

Lemma rstrip_lower s : rstrip (lower s) = lower (rstrip s).
Proof.
  induction s as [|c s IH]; [reflexivity|]. cbn [lower rstrip]. rewrite IH.
  destruct (lower_char_kept c) as (_ & _ & _ & _ & K & _).
  destruct (rstrip s); cbn [lower]; [rewrite K|]; [|reflexivity].
  destruct (isspace c); reflexivity.
Qed.

Lemma strip_lower s : strip (lower s) = lower (strip s).
Proof. unfold strip. rewrite lstrip_lower, rstrip_lower. reflexivity. Qed.

Lemma lower_idempotent s : lower (lower s) = lower s.
Proof.
  induction s as [|c s IH]; [reflexivity|]. simpl. rewrite IH.
  destruct (lower_char_kept c) as (_ & _ & _ & _ & _ & K). rewrite K.
  reflexivity.
Qed.

Lemma remove_chars_id (drop : ascii -> bool) s :
  (forall c, occurs c s -> drop c = false) -> remove_chars drop s = s.
Proof.
  induction s as [|d s IH]; intros H; [reflexivity|]. simpl.
  rewrite (H d) by (simpl; tauto). f_equal. apply IH.
  intros c Hc. apply H. simpl. tauto.
Qed.

Lemma replace_char_id a s :
  ~ occurs a s -> replace (String a EmptyString) "" s = s.
Proof.
  unfold replace. induction s as [|d s IH]; intros H; [reflexivity|].
  rewrite replace_char_step. simpl in H.
  destruct (Ascii.eqb_spec a d) as [->|Hne]; [tauto|].
  f_equal. apply IH. tauto.
Qed.

Lemma remove_punctuation_stripped word :
  strip (_remove_punctuation word true true) = _remove_punctuation word true true.
Proof.
  unfold _remove_punctuation. rewrite strip_lower, strip_idempotent.
  reflexivity.
Qed.

Lemma remove_punctuation_fixed (word : string) :
  _remove_punctuation (_remove_punctuation word true true) true true
  = _remove_punctuation word true true.
Proof.
  pose proof (remove_punctuation_chars word true) as Hchars.
  pose proof (remove_punctuation_stripped word) as Hstrip.
  set (r := _remove_punctuation word true true) in *.
  assert (Hlower : lower r = r).
  { unfold r, _remove_punctuation. apply lower_idempotent. }
  unfold _remove_punctuation at 1. rewrite re_sub_punctuation.
  rewrite remove_chars_id by (intros c Hc; apply (Hchars c Hc)).
  rewrite (replace_char_id " "%char r)
    by (intros Hc; destruct (Hchars _ Hc) as (_ & H & _); congruence).
  unfold NBSP. rewrite (replace_char_id "160"%char r)
    by (intros Hc; destruct (Hchars _ Hc) as (_ & _ & H); congruence).
  rewrite Hstrip. exact Hlower.
Qed.

(** X11. Normalising is idempotent: [_remove_punctuation] applied to its
    own result changes nothing; and neither does the [strip()] the
    classifier applies to the result. *)
Theorem remove_punctuation_idempotent (word : string) :
  _remove_punctuation (_remove_punctuation word true true) true true
    = _remove_punctuation word true true
  /\ strip (_remove_punctuation word true true)
     = _remove_punctuation word true true.
Proof.
  split; [apply remove_punctuation_fixed | apply remove_punctuation_stripped].
Qed.

(** *** The backslash *)

Lemma count_char_remove_chars (drop : ascii -> bool) c s :
  drop c = false -> count_char c (remove_chars drop s) = count_char c s.
Proof.
  intros Hc. induction s as [|d s IH]; [reflexivity|]. simpl.
  destruct (drop d) eqn:Ed; simpl; rewrite IH; [|reflexivity].
  destruct (Ascii.eqb_spec c d) as [->|_]; [congruence | reflexivity].
Qed.

Lemma count_char_replace_char a c s :
  c <> a -> count_char c (replace (String a EmptyString) "" s) = count_char c s.
Proof.
  intros Hne. unfold replace. induction s as [|d s IH]; [reflexivity|].
  rewrite replace_char_step.
  destruct (Ascii.eqb_spec a d) as [->|Had]; simpl; rewrite IH; [|reflexivity].
  destruct (Ascii.eqb_spec c d) as [->|_]; [contradiction | reflexivity].
Qed.

Lemma count_char_lstrip c s :
  isspace c = false -> count_char c (lstrip s) = count_char c s.
Proof.
  intros Hc. induction s as [|d s IH]; [reflexivity|]. simpl.
  destruct (isspace d) eqn:Ed; [|reflexivity]. rewrite IH.
  destruct (Ascii.eqb_spec c d) as [->|_]; [congruence | reflexivity].
Qed.

Lemma count_char_rstrip c s :
  isspace c = false -> count_char c (rstrip s) = count_char c s.
Proof.
  intros Hc. induction s as [|d s IH]; [reflexivity|]. cbn [rstrip].
  destruct (rstrip s) as [|e r] eqn:E.
  - simpl in IH. destruct (isspace d) eqn:Ed; simpl; rewrite <- IH.
    + destruct (Ascii.eqb_spec c d) as [->|_]; [congruence | reflexivity].
    + lia.
  - cbn [count_char]. cbn [count_char] in IH. rewrite IH. reflexivity.
Qed.

Lemma count_backslash_lower s :
  count_char "\" (lower s) = count_char "\" s.
Proof.
  induction s as [|d s IH]; [reflexivity|]. cbn [lower count_char].
  rewrite IH.
  destruct (lower_char_kept d) as (_ & _ & _ & K & _). rewrite K. reflexivity.
Qed.

(** X12. The backslash is the punctuation mark [_remove_punctuation]
    never removes (in the pattern it only escapes the bracket after
    it): the result has as many backslashes as the word. *)
Theorem remove_punctuation_keeps_backslash (word : string)
    (remove_spaces do_lower : bool) :
  count_char "\" (_remove_punctuation word remove_spaces do_lower)
  = count_char "\" word.
Proof.
  unfold _remove_punctuation. rewrite re_sub_punctuation.
  assert (H0 : count_char "\" (remove_chars (in_set punctuation_class) word)
               = count_char "\" word)
    by (apply count_char_remove_chars; vm_compute; reflexivity).
  assert (H1 : forall s, count_char "\" (if do_lower then lower s else s)
                         = count_char "\" s)
    by (intros s; destruct do_lower; [apply count_backslash_lower|reflexivity]).
  rewrite H1. destruct remove_spaces; [|exact H0].
  unfold strip, NBSP.
  rewrite count_char_rstrip, count_char_lstrip by (vm_compute; reflexivity).
  rewrite !count_char_replace_char by discriminate. exact H0.
Qed.

(** ** The accounts of [filter_out_acceptable_errors] *)

Lemma generator_calls_app tr1 tr2 :
  generator_calls (tr1 ++ tr2) = (generator_calls tr1 + generator_calls tr2)%nat.
Proof.
  induction tr1 as [|ev tr1 IH]; [reflexivity|].
  destruct ev; simpl; rewrite IH; reflexivity.
Qed.

Lemma prefix_ground_truth line :
  String.prefix "Ground-Truth" line = true ->
  String.prefix "Original Input" line = false
  /\ String.prefix "Predicted Str" line = false.
Proof.
  destruct line as [|c line]; [discriminate|].
  cbn [String.prefix].
  destruct (ascii_dec "G" c) as [<-|_]; [|discriminate].
  intros _. split; reflexivity.
Qed.

Section FilterFacts.
Variable remove_punctuation : string -> M string.
Variable normalizer : option normalize_t.

(** When the chain returns a verdict, the generator has been called
    once for [acceptable_error] and [wrong], and not at all for the two
    local verdicts. *)
Lemma classify_calls _input pred target tr v :
  classify remove_punctuation normalizer _input pred target = (tr, inr v) ->
  generator_calls tr = match v with
                       | Acceptable_error | Wrong => 1%nat
                       | _ => O
                       end.
Proof.
  unfold classify.
  destruct (String.eqb _ _); [intros [= <- <-]; reflexivity|].
  destruct (String.eqb _ _); [intros [= <- <-]; reflexivity|].
  destruct normalizer as [normalize|]; [|discriminate].
  destruct _input as [inp|]; [|discriminate].
  unfold tbind, emit, lift. cbn [ret fst snd app].
  destruct (normalize _ _) as [e|wfst]; [discriminate|]. cbn [fst snd app].
  destruct (map_M _ _) as [e|wfst']; [discriminate|]. cbn [fst snd app].
  destruct (existsb _ _); intros [= <- <-]; reflexivity.
Qed.

Lemma bump_accounted v cs a b c d :
  cs = Counters (Some a) (Some b) (Some c) (Some d) ->
  bump v cs = inr
    match v with
    | Correct_with_no_punct => Counters (Some (a + 1)) (Some b) (Some c) (Some d)
    | Correct_with_zs => Counters (Some a) (Some (b + 1)) (Some c) (Some d)
    | Acceptable_error => Counters (Some a) (Some b) (Some (c + 1)) (Some d)
    | Wrong => Counters (Some a) (Some b) (Some c) (Some (d + 1))
    end.
Proof. intros ->. destruct v; reflexivity. Qed.

Lemma filter_line_accounted n st line tr st' :
  accounted n st ->
  filter_line remove_punctuation normalizer st line = (tr, inr st') ->
  accounted (n + generator_calls tr) st'
  /\ original_wrong st' = original_wrong st
       + (if String.prefix "Ground-Truth" line then 1 else 0).
Proof.
  intros (a & b & c & d & Hcs & Ha & Hb & Hc & Hd & Hsum & Hn).
  unfold filter_line.
  destruct (String.prefix "Original Input" line) eqn:P1.
  { intros [= <- <-]. split.
    - exists a, b, c, d. simpl. repeat split; try assumption; lia.
    - destruct (String.prefix "Ground-Truth" line) eqn:P3; [|simpl; lia].
      apply prefix_ground_truth in P3 as [P3 _]. congruence. }
  destruct (String.prefix "Predicted Str" line) eqn:P2.
  { intros [= <- <-]. split.
    - exists a, b, c, d. simpl. repeat split; try assumption; lia.
    - destruct (String.prefix "Ground-Truth" line) eqn:P3; [|simpl; lia].
      apply prefix_ground_truth in P3 as [_ P3]. congruence. }
  destruct (String.prefix "Ground-Truth" line) eqn:P3.
  2:{ intros [= <- <-]. split; [|lia].
      exists a, b, c, d. simpl. repeat split; try assumption; lia. }
  destruct (classify remove_punctuation normalizer (f_input st) (f_pred st)
              (strip (after_colon line))) as [tr1 [e|v]] eqn:Ec;
    [discriminate|].
  pose proof (classify_calls _ _ _ _ _ Ec) as Hcalls.
  unfold tbind, lift. cbn [fst snd].
  rewrite (bump_accounted v _ a b c d Hcs). cbn [fst snd tret ret].
  rewrite !app_nil_r. intros [= <- <-]. split; [|simpl; lia].
  destruct v; simpl in Hcalls |- *.
  - exists (a + 1), b, c, d. simpl. repeat split; try assumption; lia.
  - exists a, (b + 1), c, d. simpl. repeat split; try assumption; lia.
  - exists a, b, (c + 1), d. simpl. repeat split; try assumption; lia.
  - exists a, b, c, (d + 1). simpl. repeat split; try assumption; lia.
Qed.

Lemma filter_loop_accounted lines : forall n st tr st',
  accounted n st ->
  tfor lines (filter_line remove_punctuation normalizer) st = (tr, inr st') ->
  accounted (n + generator_calls tr) st'
  /\ original_wrong st'
     = original_wrong st + Z.of_nat (ground_truth_lines lines).
Proof.
  induction lines as [|line lines IH]; intros n st tr st' Hacc.
  - intros [= <- <-]. simpl. split; [|unfold ground_truth_lines; simpl; lia].
    replace (n + 0)%nat with n by lia. exact Hacc.
  - cbn [tfor].
    destruct (filter_line remove_punctuation normalizer st line)
      as [tr1 [e|st1]] eqn:E1; [discriminate|].
    destruct (filter_line_accounted n st line tr1 st1 Hacc E1) as [Hacc1 Hw1].
    unfold tbind.
    destruct (tfor lines (filter_line remove_punctuation normalizer) st1)
      as [tr2 [e|st2]] eqn:E2; cbn [fst snd]; [discriminate|].
    intros [= <- <-].
    destruct (IH _ _ _ _ Hacc1 E2) as [Hacc2 Hw2]. split.
    + rewrite generator_calls_app.
      replace (n + (generator_calls tr1 + generator_calls tr2))%nat
        with (n + generator_calls tr1 + generator_calls tr2)%nat by lia.
      exact Hacc2.
    + rewrite Hw2, Hw1. unfold ground_truth_lines. cbn [List.filter].
      destruct (String.prefix "Ground-Truth" line); simpl length; lia.
Qed.
End FilterFacts.

(** X13. Whenever [filter_out_acceptable_errors] gets to its end, its
    four counters add up to [original_wrong], which is the number of
    lines that start with [Ground-Truth]; and the generator has been
    called once for each record counted in [acceptable_error] or
    [wrong], and for no other. *)
Theorem filter_accounts (remove_punctuation : string -> M string)
    (normalize : normalize_t) (input_file : list string)
    (input pred target : string) (tr : list event) (st : filter_state) :
  filter_out_acceptable_errors remove_punctuation true normalize input_file
    input pred target = (tr, inr (Some st)) ->
  exists a b c d,
    f_counters st = Counters (Some a) (Some b) (Some c) (Some d)
    /\ 0 <= a /\ 0 <= b /\ 0 <= c /\ 0 <= d
    /\ original_wrong st = a + b + c + d
    /\ original_wrong st = Z.of_nat (ground_truth_lines input_file)
    /\ Z.of_nat (generator_calls tr) = c + d.
Proof.
  unfold filter_out_acceptable_errors. cbn [negb].
  set (st0 := FilterState None pred target 0
                (Counters (Some 0) (Some 0) (Some 0) (Some 0))).
  destruct (tfor input_file (filter_line remove_punctuation (Some normalize))
              st0) as [tr1 [e|st1]] eqn:E; [discriminate|].
  unfold tbind. cbn [fst snd tret ret]. rewrite app_nil_r.
  intros [= <- <-].
  assert (H0 : accounted 0 st0).
  { exists 0, 0, 0, 0. simpl. repeat split; lia. }
  destruct (filter_loop_accounted remove_punctuation (Some normalize)
              input_file 0 st0 tr1 st1 H0 E)
    as [(a & b & c & d & Hcs & Ha & Hb & Hc & Hd & Hsum & Hn) Hw].
  exists a, b, c, d. simpl in Hw, Hn. repeat split; try assumption; lia.
Qed.

Lemma filter_accounts_witness :
  exists a b c d,
    Counters (Some 1) (Some 0) (Some 0) (Some 1)
      = Counters (Some a) (Some b) (Some c) (Some d)
    /\ 0 <= a /\ 0 <= b /\ 0 <= c /\ 0 <= d
    /\ 2 = a + b + c + d
    /\ 2 = Z.of_nat (ground_truth_lines
                       ["Original Input: $2"; "Predicted Str: 2 dollars";
                        "Ground-Truth: two dollars"; "Predicted Str: Mr";
                        "Ground-Truth: Mr."])
    /\ Z.of_nat (generator_calls [Normalize "$2" 100000]) = c + d.
Proof.
  apply (filter_accounts (fun _ => inl NameError) (fun _ _ => inr [])
           ["Original Input: $2"; "Predicted Str: 2 dollars";
            "Ground-Truth: two dollars"; "Predicted Str: Mr";
            "Ground-Truth: Mr."] "" "" ""
           [Normalize "$2" 100000]
           (FilterState (Some "$2") "Mr" "Mr." 2
              (Counters (Some 1) (Some 0) (Some 0) (Some 1)))).
  vm_compute. reflexivity.
Defined.

(** ** Reading a record *)

Lemma from_lines_keeps_input lines : forall st,
  Forall (fun line => String.prefix "Original Input" line = false) lines ->
  fl_input (fold_left from_lines_line lines st) = fl_input st.
Proof.
  induction lines as [|line lines IH]; intros st H; [reflexivity|].
  inversion H as [|? ? Hl Hr]; subst. simpl. rewrite (IH _ Hr).
  unfold from_lines_line. rewrite Hl.
  repeat (destruct (String.prefix _ line); try reflexivity).
Qed.

Lemma from_lines_keeps_pred lines : forall st,
  Forall (fun line => String.prefix "Predicted Str" line = false) lines ->
  fl_pred (fold_left from_lines_line lines st) = fl_pred st.
Proof.
  induction lines as [|line lines IH]; intros st H; [reflexivity|].
  inversion H as [|? ? Hl Hr]; subst. simpl. rewrite (IH _ Hr).
  unfold from_lines_line. rewrite Hl.
  repeat (destruct (String.prefix _ line); try reflexivity).
Qed.

Lemma from_lines_keeps_target lines : forall st,
  Forall (fun line => String.prefix "Ground-Truth" line = false) lines ->
  fl_target (fold_left from_lines_line lines st) = fl_target st.
Proof.
  induction lines as [|line lines IH]; intros st H; [reflexivity|].
  inversion H as [|? ? Hl Hr]; subst. simpl. rewrite (IH _ Hr).
  unfold from_lines_line. rewrite Hl.
  repeat (destruct (String.prefix _ line); try reflexivity).
Qed.

Lemma from_lines_keeps_classes lines : forall st,
  Forall (fun line => String.prefix "Ground Classes" line = false) lines ->
  fl_classes (fold_left from_lines_line lines st) = fl_classes st.
Proof.
  induction lines as [|line lines IH]; intros st H; [reflexivity|].
  inversion H as [|? ? Hl Hr]; subst. simpl. rewrite (IH _ Hr).
  unfold from_lines_line. rewrite Hl.
  repeat (destruct (String.prefix _ line); try reflexivity).
Qed.

(** X14. When no line starts with one of the four field names,
    [from_lines] raises [UnboundLocalError] before the constructor is
    entered; an empty list of lines is such a case. *)
Theorem from_lines_missing_field (remove_punctuation : string -> M string)
    (lines : list string) (mode : string) (normalizer : option normalize_t) :
  Forall (fun line => String.prefix "Original Input" line = false) lines
  \/ Forall (fun line => String.prefix "Predicted Str" line = false) lines
  \/ Forall (fun line => String.prefix "Ground-Truth" line = false) lines
  \/ Forall (fun line => String.prefix "Ground Classes" line = false) lines ->
  from_lines remove_punctuation lines mode normalizer
  = ([], inl UnboundLocalError).
Proof.
  intros H. unfold from_lines.
  set (st := fold_left from_lines_line lines (Fields None None None None)).
  assert (Hnone : fl_input st = None \/ fl_pred st = None
                  \/ fl_target st = None \/ fl_classes st = None).
  { unfold st. destruct H as [H|[H|[H|H]]].
    - left. rewrite from_lines_keeps_input by exact H. reflexivity.
    - right. left. rewrite from_lines_keeps_pred by exact H. reflexivity.
    - right. right. left.
      rewrite from_lines_keeps_target by exact H. reflexivity.
    - right. right. right.
      rewrite from_lines_keeps_classes by exact H. reflexivity. }
  destruct (fl_input st), (fl_target st), (fl_pred st), (fl_classes st);
    try reflexivity.
  destruct Hnone as [H1|[H1|[H1|H1]]]; discriminate.
Qed.

Lemma from_lines_missing_field_witness :
  from_lines (fun _ => inl NameError)
    ["Original Input: 2"; "Predicted Str: two"; "Ground Classes: CARDINAL"]
    "tn" None
  = ([], inl UnboundLocalError).
Proof.
  apply from_lines_missing_field. right. right. left.
  repeat constructor.
Defined.

Lemma substring_after (k v : string) :
  String.substring (String.length k)
    (String.length (k +:+ v) - String.length k) (k +:+ v) = v.
Proof.
  induction k as [|c k IH]; [|exact IH].
  change (String.substring 0 (String.length v - 0) v = v).
  rewrite Nat.sub_0_r. induction v as [|d v IHv]; [reflexivity|].
  change (String d (String.substring 0 (String.length v) v) = String d v).
  rewrite IHv. reflexivity.
Qed.

Lemma index_colon (k v : string) :
  ~ occurs ":"%char k ->
  String.index 0 ":" (k +:+ ":" +:+ v) = Some (String.length k).
Proof.
  induction k as [|c k IH]; intros Hk.
  - change (String.index 0 ":" (String ":" v) = Some O).
    cbn [String.index]. rewrite prefix_single. reflexivity.
  - change (String.index 0 ":" (String c (k +:+ ":" +:+ v))
            = Some (S (String.length k))).
    cbn [String.index]. rewrite prefix_single.
    simpl in Hk.
    destruct (Ascii.eqb_spec ":" c) as [<-|_]; [tauto|].
    rewrite IH by tauto. reflexivity.
Qed.

Lemma string_app_assoc (a b c : string) : (a +:+ b) +:+ c = a +:+ b +:+ c.
Proof.
  induction a as [|x a IH]; [reflexivity|].
  change (String x ((a +:+ b) +:+ c) = String x (a +:+ b +:+ c)).
  rewrite IH. reflexivity.
Qed.

Lemma string_length_snoc (k : string) (c : ascii) :
  String.length (k +:+ String c EmptyString) = (String.length k + 1)%nat.
Proof.
  induction k as [|x k IH]; [reflexivity|].
  change (S (String.length (k +:+ String c EmptyString))
          = S (String.length k + 1)).
  rewrite IH. reflexivity.
Qed.

(** The text after the colon that follows a field name without colon. *)
Lemma after_colon_field (k v : string) :
  ~ occurs ":"%char k -> after_colon (k +:+ ":" +:+ v) = v.
Proof.
  intros Hk. unfold after_colon. rewrite (index_colon k v Hk).
  rewrite <- (string_app_assoc k ":" v), <- (string_length_snoc k ":").
  apply substring_after.
Qed.

(** X15. A record in the layout of the log (the field name, a colon,
    the text) is read field by field: [from_lines] builds the case from
    the four texts, each without the white space around it, whatever
    the texts are (a colon inside a text does not cut it). *)
Theorem from_lines_record (remove_punctuation : string -> M string)
    (_input pred target classes mode : string)
    (normalizer : option normalize_t) :
  from_lines remove_punctuation
    ["Original Input:" +:+ _input; "Predicted Str:" +:+ pred;
     "Ground-Truth:" +:+ target; "Ground Classes:" +:+ classes]
    mode normalizer
  = ErrorCase_init remove_punctuation (strip _input) (strip target)
      (strip pred) (strip classes) mode normalizer.
Proof.
  assert (A1 : after_colon ("Original Input:" +:+ _input) = _input)
    by (apply (after_colon_field "Original Input"); vm_compute; intuition discriminate).
  assert (A2 : after_colon ("Predicted Str:" +:+ pred) = pred)
    by (apply (after_colon_field "Predicted Str"); vm_compute; intuition discriminate).
  assert (A3 : after_colon ("Ground-Truth:" +:+ target) = target)
    by (apply (after_colon_field "Ground-Truth"); vm_compute; intuition discriminate).
  assert (A4 : after_colon ("Ground Classes:" +:+ classes) = classes)
    by (apply (after_colon_field "Ground Classes"); vm_compute; intuition discriminate).
  assert (P1 : String.prefix "Original Input" ("Original Input:" +:+ _input)
               = true) by (vm_compute; reflexivity).
  assert (P2 : String.prefix "Original Input" ("Predicted Str:" +:+ pred)
               = false) by (vm_compute; reflexivity).
  assert (P3 : String.prefix "Predicted Str" ("Predicted Str:" +:+ pred)
               = true) by (vm_compute; reflexivity).
  assert (P4 : String.prefix "Original Input" ("Ground-Truth:" +:+ target)
               = false) by (vm_compute; reflexivity).
  assert (P5 : String.prefix "Predicted Str" ("Ground-Truth:" +:+ target)
               = false) by (vm_compute; reflexivity).
  assert (P6 : String.prefix "Ground-Truth" ("Ground-Truth:" +:+ target)
               = true) by (vm_compute; reflexivity).
  assert (P7 : String.prefix "Original Input" ("Ground Classes:" +:+ classes)
               = false) by (vm_compute; reflexivity).
  assert (P8 : String.prefix "Predicted Str" ("Ground Classes:" +:+ classes)
               = false) by (vm_compute; reflexivity).
  assert (P9 : String.prefix "Ground-Truth" ("Ground Classes:" +:+ classes)
               = false) by (vm_compute; reflexivity).
  assert (P10 : String.prefix "Ground Classes" ("Ground Classes:" +:+ classes)
                = true) by (vm_compute; reflexivity).
  unfold from_lines. cbn [fold_left]. unfold from_lines_line.
  rewrite P1, P2, P3, P4, P5, P6, P7, P8, P9, P10, A1, A2, A3, A4.
  reflexivity.
Qed.

(** ** Per-class statistics *)

Lemma append_stat_lookup_eq (stats : gmap string (list Z)) c v :
  append_stat stats c v !! c = Some (default [] (stats !! c) ++ [v]).
Proof.
  unfold append_stat. rewrite lookup_alter_eq.
  destruct (stats !! c) as [l|] eqn:E.
  - rewrite E. reflexivity.
  - rewrite lookup_insert_eq. reflexivity.
Qed.

Lemma append_stat_lookup_ne (stats : gmap string (list Z)) c c' v :
  c <> c' -> append_stat stats c v !! c' = stats !! c'.
Proof.
  intros Hne. unfold append_stat. rewrite lookup_alter_ne by exact Hne.
  destruct (stats !! c); [reflexivity|]. apply lookup_insert_ne, Hne.
Qed.

Section ClassStatsFacts.
Variable is_same : string -> string -> string -> string -> bool.
Variable INST_BACKWARD : string.
Variable lang : string.

Lemma update_stats_lists st inst c :
  default [] ((update_stats is_same INST_BACKWARD lang st inst).1 !! c)
    = default [] (st.1 !! c)
      ++ outcomes is_same INST_BACKWARD lang true c [inst]
  /\ default [] ((update_stats is_same INST_BACKWARD lang st inst).2 !! c)
     = default [] (st.2 !! c)
       ++ outcomes is_same INST_BACKWARD lang false c [inst].
Proof.
  destruct st as [itn tn]. destruct inst as [[[d cl] p] t].
  unfold update_stats. cbn [outcomes fst snd].
  destruct (String.eqb d INST_BACKWARD); cbn [Bool.eqb andb fst snd];
    rewrite ?app_nil_r.
  - split; [|reflexivity].
    destruct (String.eqb_spec cl c) as [->|Hne].
    + rewrite append_stat_lookup_eq. reflexivity.
    + rewrite append_stat_lookup_ne by exact Hne. rewrite app_nil_r. reflexivity.
  - split; [reflexivity|].
    destruct (String.eqb_spec cl c) as [->|Hne].
    + rewrite append_stat_lookup_eq. reflexivity.
    + rewrite append_stat_lookup_ne by exact Hne. rewrite app_nil_r. reflexivity.
Qed.

Lemma outcomes_app backward c r1 r2 :
  outcomes is_same INST_BACKWARD lang backward c (r1 ++ r2)
  = outcomes is_same INST_BACKWARD lang backward c r1
    ++ outcomes is_same INST_BACKWARD lang backward c r2.
Proof.
  induction r1 as [|[[[d cl] p] t] r1 IH]; [reflexivity|].
  cbn [app outcomes]. rewrite IH.
  destruct (_ && _); reflexivity.
Qed.

Lemma update_stats_fold records : forall st c,
  default [] ((fold_left (update_stats is_same INST_BACKWARD lang) records st).1
              !! c)
    = default [] (st.1 !! c)
      ++ outcomes is_same INST_BACKWARD lang true c records
  /\ default [] ((fold_left (update_stats is_same INST_BACKWARD lang) records
                    st).2 !! c)
     = default [] (st.2 !! c)
       ++ outcomes is_same INST_BACKWARD lang false c records.
Proof.
  induction records as [|inst records IH]; intros st c.
  - simpl. rewrite !app_nil_r. auto.
  - cbn [fold_left].
    destruct (IH (update_stats is_same INST_BACKWARD lang st inst) c)
      as [H1 H2].
    destruct (update_stats_lists st inst c) as [K1 K2].
    rewrite H1, H2, K1, K2, <- !app_assoc.
    change (inst :: records) with ([inst] ++ records).
    rewrite !outcomes_app. auto.
Qed.

Lemma stats_ok_append (stats : gmap string (list Z)) c b :
  stats_ok stats -> stats_ok (append_stat stats c (int_of_bool b)).
Proof.
  intros Hok c' l Hl. destruct (decide (c = c')) as [<-|Hne].
  - rewrite append_stat_lookup_eq in Hl. injection Hl as <-. split.
    + destruct (default [] (stats !! c)); discriminate.
    + apply Forall_app. split.
      * destruct (stats !! c) as [l0|] eqn:E; simpl; [|constructor].
        apply (Hok c l0 E).
      * constructor; [|constructor]. destruct b; simpl; auto.
  - rewrite append_stat_lookup_ne in Hl by exact Hne. exact (Hok c' l Hl).
Qed.

Lemma stats_ok_fold records : forall st,
  stats_ok st.1 -> stats_ok st.2 ->
  stats_ok (fold_left (update_stats is_same INST_BACKWARD lang) records st).1
  /\ stats_ok (fold_left (update_stats is_same INST_BACKWARD lang) records st).2.
Proof.
  induction records as [|inst records IH]; intros st H1 H2; [auto|].
  cbn [fold_left]. apply IH.
  - destruct st as [itn tn], inst as [[[d cl] p] t]. unfold update_stats.
    destruct (String.eqb d INST_BACKWARD); cbn [fst snd];
      [apply stats_ok_append|]; assumption.
  - destruct st as [itn tn], inst as [[[d cl] p] t]. unfold update_stats.
    destruct (String.eqb d INST_BACKWARD); cbn [fst snd];
      [|apply stats_ok_append]; assumption.
Qed.
End ClassStatsFacts.

Lemma counts_of_outcomes (l : list Z) :
  Forall (fun v => v = 0 \/ v = 1) l ->
  0 <= correct_count l <= total_count l.
Proof.
  unfold correct_count, total_count.
  induction 1 as [|v l Hv Hl IH]; simpl; [lia|].
  destruct Hv; subst; lia.
Qed.

(** X16. One batch of the statistics loop extends, for every class, the
    list of the backward dictionary by the outcomes of the backward
    instances of that class, in their order, and the list of the
    forward dictionary by those of its other instances; the lists of
    the other classes stay as they are (a class without a list counts
    as the empty list). *)
Theorem update_stats_batch_lists
    (is_same : string -> string -> string -> string -> bool)
    (INST_BACKWARD lang : string)
    (st : gmap string (list Z) * gmap string (list Z))
    (dirs classes preds targets : list string) (c : string) :
  default [] ((update_stats_batch is_same INST_BACKWARD lang st
                 dirs classes preds targets).1 !! c)
    = default [] (st.1 !! c)
      ++ outcomes is_same INST_BACKWARD lang true c
           (zip4 dirs classes preds targets)
  /\ default [] ((update_stats_batch is_same INST_BACKWARD lang st
                    dirs classes preds targets).2 !! c)
     = default [] (st.2 !! c)
       ++ outcomes is_same INST_BACKWARD lang false c
            (zip4 dirs classes preds targets).
Proof. unfold update_stats_batch. apply update_stats_fold. Qed.

(** X17. The statistics loop keeps every list of both dictionaries
    non-empty and made of zeros and ones, as the empty dictionaries
    [main] starts from are; so for every class that
    [print_class_based_stats] prints, the count of correct outcomes lies
    between zero and the total count, and the total count is positive. *)
Theorem stats_counts_bounded
    (is_same : string -> string -> string -> string -> bool)
    (INST_BACKWARD lang : string)
    (st : gmap string (list Z) * gmap string (list Z))
    (dirs classes preds targets : list string) :
  stats_ok st.1 -> stats_ok st.2 ->
  let st' := update_stats_batch is_same INST_BACKWARD lang st
               dirs classes preds targets in
  stats_ok st'.1 /\ stats_ok st'.2
  /\ stats_ok (∅ : gmap string (list Z))
  /\ forall c l, (st'.1 !! c = Some l \/ st'.2 !! c = Some l) ->
       0 <= correct_count l <= total_count l /\ 0 < total_count l.
Proof.
  intros H1 H2 st'.
  destruct (stats_ok_fold is_same INST_BACKWARD lang
              (zip4 dirs classes preds targets) st H1 H2) as [K1 K2].
  fold (update_stats_batch is_same INST_BACKWARD lang st
          dirs classes preds targets) in K1, K2. fold st' in K1, K2.
  split; [exact K1|]. split; [exact K2|]. split.
  - intros c l Hl. rewrite lookup_empty in Hl. discriminate.
  - intros c l [Hl|Hl].
    + destruct (K1 c l Hl) as [Hne Hall]. split.
      * apply counts_of_outcomes, Hall.
      * unfold total_count. destruct l; [contradiction | simpl; lia].
    + destruct (K2 c l Hl) as [Hne Hall]. split.
      * apply counts_of_outcomes, Hall.
      * unfold total_count. destruct l; [contradiction | simpl; lia].
Qed.

Lemma stats_counts_bounded_witness :
  let st' := update_stats_batch (fun p t _ _ => String.eqb p t) "BACKWARD" "en"
               (∅, ∅) ["BACKWARD"; "FORWARD"; "BACKWARD"]
               ["DATE"; "DATE"; "DATE"] ["a"; "b"; "c"] ["a"; "b"; "x"] in
  stats_ok st'.1 /\ stats_ok st'.2
  /\ stats_ok (∅ : gmap string (list Z))
  /\ forall c l, (st'.1 !! c = Some l \/ st'.2 !! c = Some l) ->
       0 <= correct_count l <= total_count l /\ 0 < total_count l.
Proof.
  apply (stats_counts_bounded (fun p t _ _ => String.eqb p t) "BACKWARD" "en"
           (∅, ∅)).
  - intros c l Hl. cbn [fst] in Hl. rewrite lookup_empty in Hl. discriminate.
  - intros c l Hl. cbn [snd] in Hl. rewrite lookup_empty in Hl. discriminate.
Defined.

Example update_stats_ex1 :
  (update_stats_batch (fun p t _ _ => String.eqb p t) "BACKWARD" "en"
     (∅, ∅) ["BACKWARD"; "FORWARD"; "BACKWARD"]
     ["DATE"; "DATE"; "DATE"] ["a"; "b"; "c"] ["a"; "b"; "x"]).1 !! "DATE"
  = Some [1; 0].
Proof. vm_compute. reflexivity. Qed.

(** ** From the spans back to the mask *)

Lemma run_is_replicate (mask : list bool) (a e : Z) (f : bool) :
  0 <= a <= e + 1 -> e < Z.of_nat (length mask) ->
  (forall p, a <= p <= e -> mask !! Z.to_nat p = Some f) ->
  take (Z.to_nat (e + 1 - a)) (drop (Z.to_nat a) mask)
  = replicate (Z.to_nat (e + 1 - a)) f.
Proof.
  intros Ha He Hrun. apply list_eq. intros i.
  destruct (decide (i < Z.to_nat (e + 1 - a))%nat) as [Hi|Hi].
  - rewrite lookup_take_lt by exact Hi. rewrite lookup_drop.
    rewrite lookup_replicate_2 by exact Hi.
    specialize (Hrun (a + Z.of_nat i) ltac:(lia)).
    replace (Z.to_nat (a + Z.of_nat i)) with (Z.to_nat a + i)%nat in Hrun by lia.
    exact Hrun.
  - rewrite lookup_take_ge by lia. symmetry.
    apply lookup_replicate_None. lia.
Qed.

Lemma tiling_expand (mask : list bool) sp : forall a b,
  tiling a sp b -> flags_agree mask sp ->
  0 <= a -> b <= Z.of_nat (length mask) ->
  expand sp = take (Z.to_nat (b - a)) (drop (Z.to_nat a) mask).
Proof.
  induction sp as [|s sp IH]; intros a b Ht Hf Ha Hb; simpl in Ht.
  - subst b. replace (a - a) with 0 by lia. reflexivity.
  - destruct Ht as (Hs & Hle & Hrest).
    destruct (tiling_cover _ _ _ Hrest) as [Hb' _].
    assert (Hf' : flags_agree mask sp).
    { intros s0 p Hin Hp. apply Hf; [apply list_elem_of_further, Hin | exact Hp]. }
    assert (Hrun : forall p, span_start s <= p <= span_end s ->
                     mask !! Z.to_nat p = Some (span_flag s)).
    { intros p Hp. apply Hf; [apply list_elem_of_here | exact Hp]. }
    unfold expand. cbn [map concat]. fold (expand sp).
    rewrite (IH (span_end s + 1) b Hrest Hf') by lia.
    rewrite <- (run_is_replicate mask (span_start s) (span_end s)
                  (span_flag s)) by (lia || exact Hrun).
    rewrite Hs.
    replace (Z.to_nat (span_end s + 1))
      with (Z.to_nat a + Z.to_nat (span_end s + 1 - a))%nat by lia.
    rewrite <- drop_drop, take_take_drop. f_equal. lia.
Qed.

Lemma get_spans_expand (mask : list bool) (sp : list span) :
  get_spans mask = inr sp -> expand sp = mask.
Proof.
  intros E.
  destruct (get_spans_spec mask (get_spans_returns_nonempty _ _ E))
    as (sp' & E' & Ht & _ & Hf).
  rewrite E in E'. injection E' as <-. simpl in Ht, Hf.
  rewrite (tiling_expand mask sp 0 _ Ht Hf) by lia.
  rewrite drop_0, take_ge by lia. reflexivity.
Qed.

(** X18. The mask can be read back from the spans [get_spans] returns:
    writing each flag as many times as its span has indices gives the
    mask; so two masks with the same spans are the same mask. *)
Theorem get_spans_roundtrip (mask mask' : list bool) (sp : list span) :
  get_spans mask = inr sp ->
  expand sp = mask /\ (get_spans mask' = inr sp -> mask' = mask).
Proof.
  intros E. split; [apply get_spans_expand, E|].
  intros E'. rewrite <- (get_spans_expand _ _ E), <- (get_spans_expand _ _ E').
  reflexivity.
Qed.

Lemma get_spans_roundtrip_witness :
  expand [(0, 1, true); (2, 2, false); (3, 3, true)]
  = [true; true; false; true].
Proof.
  destruct (get_spans_roundtrip [true; true; false; true] []
              [(0, 1, true); (2, 2, false); (3, 3, true)]) as [H _].
  - vm_compute. reflexivity.
  - exact H.
Defined.

(** ** The chain sees normal forms only *)

(** X19. The chain depends on the prediction and the reference through
    their normal forms only: normalising them beforehand changes neither
    the verdict nor the call of the generator. *)
Theorem classify_normal_forms (remove_punctuation : string -> M string)
    (normalizer : option normalize_t) (_input : option string)
    (pred target : string) :
  classify remove_punctuation normalizer _input
    (_remove_punctuation pred true true) (_remove_punctuation target true true)
  = classify remove_punctuation normalizer _input pred target.
Proof.
  unfold classify.
  rewrite (remove_punctuation_fixed pred), (remove_punctuation_fixed target).
  reflexivity.
Qed.
